(** * Analytics precomputation engine (package services)

    A shallow embedding of the [Analytics] engine of package [services]:
    row parsing, map-based aggregation, batch merging, rollup sorting, the
    snapshot cache decision of [LoadFromCSV] and the truncating accessors.

    Conventions.
    - Go [float64] is Rocq's primitive binary64 [float]; [+=] is [PrimFloat.add]
      and the comparisons of the sort callbacks are [PrimFloat.ltb].
    - Go [int] and [int64] are integers of [Z] wrapped to 64 bits two's
      complement ([int_wrap]).
    - [map[string]*T] is [gmap string T]: every pointer stored in a map is
      created for that map and never shared, so the pointee is the value.
    - [time.Time] keeps the instant (for [Before]) and the calendar year and
      month (for [Format "2006-01"]).
    - What the Go runtime and standard library decide is an interface with
      its documented laws: the parsers of [strconv] and [time] ([StdLib]),
      [slices.SortFunc] ([SliceSort]), the order in which [range] walks a
      map ([MapRange]) and the order in which parse tasks deliver their
      results ([ChanOrder]). Each has an executable instance below. *)

From Stdlib Require Import Floats ZArith Permutation Sorted.
From Stdlib Require Import Ascii String.
From stdpp Require Import gmap strings list sorting pretty.

Local Open Scope Z_scope.

(** ** Machine integers *)

Definition int_wrap (z : Z) : Z := (z + 2 ^ 63) mod 2 ^ 64 - 2 ^ 63.

Definition int_add (a b : Z) : Z := int_wrap (a + b).

Definition int_range (z : Z) : Prop := - 2 ^ 63 <= z < 2 ^ 63.

(** ** internal/models *)

Record Time := {
  instant : Z;
  year : Z;
  month : Z
}.

Definition Before (t u : Time) : bool := instant t <? instant u.

(** [appendInt] of package time: sign, then the decimal digits padded with
    zeros to [width]. *)
Fixpoint zeros (n : nat) : string :=
  match n with
  | O => ""
  | S n' => "0" +:+ zeros n'
  end.

Definition appendInt (x : Z) (width : nat) : string :=
  let digits := pretty (Z.abs_N x) in
  let padded := zeros (width - String.length digits) +:+ digits in
  if x <? 0 then "-" +:+ padded else padded.

(** [t.Format("2006-01")]. *)
Definition FormatMonth (t : Time) : string :=
  appendInt (year t) 4 +:+ "-" +:+ appendInt (month t) 2.

Record Transaction := {
  tx_Date : Time;
  tx_Country : string;
  tx_Region : string;
  tx_ProductName : string;
  tx_Category : string;
  tx_Price : float;
  tx_Quantity : Z;
  tx_TotalPrice : float;
  tx_Stock : Z
}.

Record CountryRevenue := {
  cr_Country : string;
  cr_ProductName : string;
  cr_Category : string;
  cr_TotalRevenue : float;
  cr_Transactions : Z
}.

Record ProductFrequency := {
  pf_ProductName : string;
  pf_Category : string;
  pf_Frequency : Z;
  pf_StockQuantity : Z
}.

Record MonthlyData := {
  md_Month : string;
  md_Volume : float
}.

Record RegionRevenue := {
  rr_Region : string;
  rr_Revenue : float;
  rr_ItemsSold : Z
}.

(** ** Aggregation maps *)

Record Groups := {
  countryGroups : gmap string CountryRevenue;
  productGroups : gmap string ProductFrequency;
  monthlyGroups : gmap string float;
  regionGroups : gmap string RegionRevenue
}.

Definition emptyGroups : Groups :=
  {| countryGroups := ∅; productGroups := ∅; monthlyGroups := ∅; regionGroups := ∅ |}.

(** The Go idiom [if m[k] == nil { m[k] = fresh }; m[k] = step(m[k])]; for a
    map of plain values ([monthlyGroups]) [fresh] is the zero value. *)
Definition upsert {A} (k : string) (fresh : A) (step : A → A)
    (m : gmap string A) : gmap string A :=
  <[k := step (default fresh (m !! k))]> m.

Definition countryKey (tx : Transaction) : string :=
  tx_Country tx +:+ "|" +:+ tx_ProductName tx +:+ "|" +:+ tx_Category tx.

Definition newCountry (tx : Transaction) : CountryRevenue :=
  {| cr_Country := tx_Country tx; cr_ProductName := tx_ProductName tx;
     cr_Category := tx_Category tx; cr_TotalRevenue := 0%float;
     cr_Transactions := 0 |}.

Definition addCountry (tx : Transaction) (e : CountryRevenue) : CountryRevenue :=
  {| cr_Country := cr_Country e; cr_ProductName := cr_ProductName e;
     cr_Category := cr_Category e;
     cr_TotalRevenue := (cr_TotalRevenue e + tx_TotalPrice tx)%float;
     cr_Transactions := int_add (cr_Transactions e) 1 |}.

Definition newProduct (tx : Transaction) : ProductFrequency :=
  {| pf_ProductName := tx_ProductName tx; pf_Category := tx_Category tx;
     pf_Frequency := 0; pf_StockQuantity := tx_Stock tx |}.

Definition addProduct (e : ProductFrequency) : ProductFrequency :=
  {| pf_ProductName := pf_ProductName e; pf_Category := pf_Category e;
     pf_Frequency := int_add (pf_Frequency e) 1;
     pf_StockQuantity := pf_StockQuantity e |}.

Definition newRegion (tx : Transaction) : RegionRevenue :=
  {| rr_Region := tx_Region tx; rr_Revenue := 0%float; rr_ItemsSold := 0 |}.

Definition addRegion (tx : Transaction) (e : RegionRevenue) : RegionRevenue :=
  {| rr_Region := rr_Region e;
     rr_Revenue := (rr_Revenue e + tx_TotalPrice tx)%float;
     rr_ItemsSold := int_add (rr_ItemsSold e) (tx_Quantity tx) |}.

Definition aggregateTransaction (g : Groups) (tx : Transaction) : Groups :=
  {| countryGroups :=
       upsert (countryKey tx) (newCountry tx) (addCountry tx) (countryGroups g);
     productGroups :=
       upsert (tx_ProductName tx) (newProduct tx) addProduct (productGroups g);
     monthlyGroups :=
       upsert (FormatMonth (tx_Date tx)) 0%float
         (λ v, (v + tx_TotalPrice tx)%float) (monthlyGroups g);
     regionGroups :=
       upsert (tx_Region tx) (newRegion tx) (addRegion tx) (regionGroups g) |}.

(** The loop [for _, tx := range data { a.aggregateTransaction(tx, ...) }]. *)
Definition aggregateAll (g : Groups) (data : list Transaction) : Groups :=
  foldl aggregateTransaction g data.

(** ** Merging a batch's local maps into the global maps

    Each merge is a [range] loop over the local map that writes only the
    entry of the key it visits; [map_fold] walks the local map once. *)

Definition cloneCountry (v : CountryRevenue) : CountryRevenue :=
  {| cr_Country := cr_Country v; cr_ProductName := cr_ProductName v;
     cr_Category := cr_Category v; cr_TotalRevenue := 0%float;
     cr_Transactions := 0 |}.

Definition accCountry (v e : CountryRevenue) : CountryRevenue :=
  {| cr_Country := cr_Country e; cr_ProductName := cr_ProductName e;
     cr_Category := cr_Category e;
     cr_TotalRevenue := (cr_TotalRevenue e + cr_TotalRevenue v)%float;
     cr_Transactions := int_add (cr_Transactions e) (cr_Transactions v) |}.

Definition mergeResults (local global : gmap string CountryRevenue)
    : gmap string CountryRevenue :=
  map_fold (λ k v g, upsert k (cloneCountry v) (accCountry v) g) global local.

Definition cloneProduct (v : ProductFrequency) : ProductFrequency :=
  {| pf_ProductName := pf_ProductName v; pf_Category := pf_Category v;
     pf_Frequency := 0; pf_StockQuantity := pf_StockQuantity v |}.

Definition accProduct (v e : ProductFrequency) : ProductFrequency :=
  {| pf_ProductName := pf_ProductName e; pf_Category := pf_Category e;
     pf_Frequency := int_add (pf_Frequency e) (pf_Frequency v);
     pf_StockQuantity := pf_StockQuantity e |}.

Definition mergeProductResults (local global : gmap string ProductFrequency)
    : gmap string ProductFrequency :=
  map_fold (λ k v g, upsert k (cloneProduct v) (accProduct v) g) global local.

Definition mergeMonthlyResults (local global : gmap string float)
    : gmap string float :=
  map_fold (λ k v g, upsert k 0%float (λ e, (e + v)%float) g) global local.

Definition cloneRegion (v : RegionRevenue) : RegionRevenue :=
  {| rr_Region := rr_Region v; rr_Revenue := 0%float; rr_ItemsSold := 0 |}.

Definition accRegion (v e : RegionRevenue) : RegionRevenue :=
  {| rr_Region := rr_Region e;
     rr_Revenue := (rr_Revenue e + rr_Revenue v)%float;
     rr_ItemsSold := int_add (rr_ItemsSold e) (rr_ItemsSold v) |}.

Definition mergeRegionResults (local global : gmap string RegionRevenue)
    : gmap string RegionRevenue :=
  map_fold (λ k v g, upsert k (cloneRegion v) (accRegion v) g) global local.

(** The four merges done under the mutex at the end of [processBatch]. *)
Definition mergeBatch (local global : Groups) : Groups :=
  {| countryGroups := mergeResults (countryGroups local) (countryGroups global);
     productGroups := mergeProductResults (productGroups local) (productGroups global);
     monthlyGroups := mergeMonthlyResults (monthlyGroups local) (monthlyGroups global);
     regionGroups := mergeRegionResults (regionGroups local) (regionGroups global) |}.

(** ** Library interfaces *)

(** [strings.TrimSpace], [time.Parse("2006-01-02", _)], [strconv.ParseFloat(_, 64)]
    and [strconv.Atoi]; [None] is a non-nil error. *)
Class StdLib := {
  TrimSpace : string → string;
  ParseDate : string → option Time;
  ParseFloat : string → option float;
  Atoi : string → option Z
}.

(** A comparison callback [cmp] orders [a] before [b] when [cmp a b < 0]. *)
Definition before {A} (cmp : A → A → Z) (a b : A) : Prop := cmp a b < 0.

(** [cmp] is a strict weak ordering on the elements of [l], which is what
    [slices.SortFunc] requires of its callback. *)
Definition StrictWeak {A} (cmp : A → A → Z) (l : list A) : Prop :=
  (∀ a, a ∈ l → ¬ before cmp a a) ∧
  (∀ a b c, a ∈ l → b ∈ l → c ∈ l →
     before cmp a b → before cmp b c → before cmp a c) ∧
  (∀ a b c, a ∈ l → b ∈ l → c ∈ l →
     before cmp a c → before cmp a b ∨ before cmp b c).

(** [slices.SortFunc]: it only swaps elements, and for a strict weak ordering
    it leaves no element before one that [cmp] orders ahead of it. Nothing is
    promised on the order of elements that compare equal. *)
Class SliceSort := {
  SortFunc : ∀ A, (A → A → Z) → list A → list A;
  SortFunc_perm : ∀ A (cmp : A → A → Z) l, SortFunc A cmp l ≡ₚ l;
  SortFunc_sorted : ∀ A (cmp : A → A → Z) l,
    StrictWeak cmp l → Sorted (λ a b, ¬ before cmp b a) (SortFunc A cmp l)
}.
Arguments SortFunc {_ _} cmp l.

(** [for k, v := range m]: every entry once, in an order the runtime picks. *)
Class MapRange := {
  rangeOrder : ∀ A, gmap string A → list (string * A);
  rangeOrder_perm : ∀ A (m : gmap string A), rangeOrder A m ≡ₚ map_to_list m
}.
Arguments rangeOrder {_ _} m.

(** The order in which the results of the parse tasks of a batch arrive on
    the channel: every result once, in an order the scheduler picks. *)
Class ChanOrder := {
  arrival : ∀ A, list A → list A;
  arrival_perm : ∀ A (l : list A), arrival A l ≡ₚ l
}.
Arguments arrival {_ _} l.

(** [insertionSortCmpFunc] of package slices, the routine [SortFunc] runs on
    slices of at most twelve elements: each element is swapped leftwards
    while [cmp] orders it before its left neighbour. The sorted prefix is
    kept reversed, so its head is the left neighbour. *)
Fixpoint insertLeft {A} (cmp : A → A → Z) (x : A) (rprefix : list A) : list A :=
  match rprefix with
  | [] => [x]
  | y :: r => if cmp x y <? 0 then y :: insertLeft cmp x r else x :: y :: r
  end.

Definition insertionSortCmpFunc {A} (cmp : A → A → Z) (l : list A) : list A :=
  reverse (foldl (λ rprefix x, insertLeft cmp x rprefix) [] l).

(** ** Rollup finalizer *)

Definition cmpCountry (a b : CountryRevenue) : Z :=
  if (cr_TotalRevenue b <? cr_TotalRevenue a)%float then -1
  else if (cr_TotalRevenue a <? cr_TotalRevenue b)%float then 1
  else 0.

Definition cmpProduct (a b : ProductFrequency) : Z :=
  if pf_Frequency b <? pf_Frequency a then -1
  else if pf_Frequency a <? pf_Frequency b then 1
  else 0.

Definition cmpMonthly (a b : MonthlyData) : Z :=
  if (md_Volume b <? md_Volume a)%float then -1
  else if (md_Volume a <? md_Volume b)%float then 1
  else 0.

Definition cmpRegion (a b : RegionRevenue) : Z :=
  if (rr_Revenue b <? rr_Revenue a)%float then -1
  else if (rr_Revenue a <? rr_Revenue b)%float then 1
  else 0.

Definition toMonthlyData (kv : string * float) : MonthlyData :=
  {| md_Month := kv.1; md_Volume := kv.2 |}.

Section Finalizer.
Context `{!SliceSort} `{!MapRange}.

Definition sortCountryRevenue (groups : gmap string CountryRevenue)
    : list CountryRevenue :=
  SortFunc cmpCountry (snd <$> rangeOrder groups).

Definition sortTopProducts (groups : gmap string ProductFrequency)
    : list ProductFrequency :=
  SortFunc cmpProduct (snd <$> rangeOrder groups).

Definition sortMonthlySales (groups : gmap string float) : list MonthlyData :=
  SortFunc cmpMonthly (toMonthlyData <$> rangeOrder groups).

Definition sortTopRegions (groups : gmap string RegionRevenue)
    : list RegionRevenue :=
  SortFunc cmpRegion (snd <$> rangeOrder groups).
End Finalizer.

(** ** Read model *)

Record PrecomputedData := {
  pd_CountryRevenue : list CountryRevenue;
  pd_TopProducts : list ProductFrequency;
  pd_MonthlySales : list MonthlyData;
  pd_TopRegions : list RegionRevenue;
  pd_LastModified : Time;
  pd_RecordCount : Z
}.

Definition zeroTime : Time := {| instant := 0; year := 1; month := 1 |}.

Definition emptyPrecomputed : PrecomputedData :=
  {| pd_CountryRevenue := []; pd_TopProducts := []; pd_MonthlySales := [];
     pd_TopRegions := []; pd_LastModified := zeroTime; pd_RecordCount := 0 |}.

Record Analytics := {
  precomputed : PrecomputedData;
  csvPath : string;
  recordsProcessed : Z
}.

Definition NewAnalytics : Analytics :=
  {| precomputed := emptyPrecomputed; csvPath := ""; recordsProcessed := 0 |}.

Definition setPrecomputed (a : Analytics) (p : PrecomputedData) : Analytics :=
  {| precomputed := p; csvPath := csvPath a;
     recordsProcessed := recordsProcessed a |}.

Section Compute.
Context `{!SliceSort} `{!MapRange}.

Definition finalize (g : Groups) (now : Time) (count : Z) : PrecomputedData :=
  {| pd_CountryRevenue := sortCountryRevenue (countryGroups g);
     pd_TopProducts := sortTopProducts (productGroups g);
     pd_MonthlySales := sortMonthlySales (monthlyGroups g);
     pd_TopRegions := sortTopRegions (regionGroups g);
     pd_LastModified := now;
     pd_RecordCount := count |}.

Definition computeAnalytics (data : list Transaction) (now : Time)
    : PrecomputedData :=
  finalize (aggregateAll emptyGroups data) now (Z.of_nat (length data)).

(** [now] and [now'] are the two readings of [time.Now()], the first inside
    [computeAnalytics]. *)
Definition SetData (a : Analytics) (data : list Transaction) (now now' : Time)
    : Analytics :=
  let p := computeAnalytics data now in
  setPrecomputed a
    {| pd_CountryRevenue := pd_CountryRevenue p;
       pd_TopProducts := pd_TopProducts p;
       pd_MonthlySales := pd_MonthlySales p;
       pd_TopRegions := pd_TopRegions p;
       pd_LastModified := now';
       pd_RecordCount := Z.of_nat (length data) |}.
End Compute.

(** ** Query accessors *)

(** A call either returns or ends in a run-time panic. *)
Inductive Run (A : Type) :=
  | Returns (a : A)
  | Panics.
Arguments Returns {A} a.
Arguments Panics {A}.

(** The slice expression [s[:hi]] on a slice whose capacity is its length:
    a bound outside [0, len] is a run-time panic. *)
Definition sliceTo {A} (s : list A) (hi : Z) : Run (list A) :=
  if (0 <=? hi) && (hi <=? Z.of_nat (length s))
  then Returns (take (Z.to_nat hi) s)
  else Panics.

Definition CountryRevenueOf (a : Analytics) : list CountryRevenue :=
  pd_CountryRevenue (precomputed a).

Definition TopProducts (a : Analytics) (limit : Z) : Run (list ProductFrequency) :=
  if Z.of_nat (length (pd_TopProducts (precomputed a))) <=? limit
  then Returns (pd_TopProducts (precomputed a))
  else sliceTo (pd_TopProducts (precomputed a)) limit.

Definition MonthlySales (a : Analytics) : list MonthlyData :=
  pd_MonthlySales (precomputed a).

Definition TopRegions (a : Analytics) (limit : Z) : Run (list RegionRevenue) :=
  if Z.of_nat (length (pd_TopRegions (precomputed a))) <=? limit
  then Returns (pd_TopRegions (precomputed a))
  else sliceTo (pd_TopRegions (precomputed a)) limit.

(** ** Row parsing *)

(** [strings.Split(line, ",")]: the empty line is one empty field. *)
Fixpoint Split (line : string) : list string :=
  match line with
  | EmptyString => [EmptyString]
  | String c rest =>
      if Ascii.eqb c ","%char then EmptyString :: Split rest
      else match Split rest with
           | f :: fs => String c f :: fs
           | [] => [String c EmptyString]
           end
  end.

(** [record[i]]; every use below is guarded by the length check. *)
Definition field (record : list string) (i : nat) : string :=
  default EmptyString (record !! i).

Section Parsing.
Context `{!StdLib}.

(** [None] is the non-nil error; the caller drops the zero Transaction that
    comes with it. *)
Definition parseTransactionFast (record : list string) : option Transaction :=
  if Z.of_nat (length record) <? 13 then None else
  match ParseDate (TrimSpace (field record 1)) with
  | None => None
  | Some transactionDate =>
  match ParseFloat (TrimSpace (field record 8)) with
  | None => None
  | Some price =>
  match Atoi (TrimSpace (field record 9)) with
  | None => None
  | Some quantity =>
  match ParseFloat (TrimSpace (field record 10)) with
  | None => None
  | Some totalPrice =>
  match Atoi (TrimSpace (field record 11)) with
  | None => None
  | Some stock =>
      Some {| tx_Date := transactionDate;
              tx_Country := TrimSpace (field record 3);
              tx_Region := TrimSpace (field record 4);
              tx_ProductName := TrimSpace (field record 6);
              tx_Category := TrimSpace (field record 7);
              tx_Price := price;
              tx_Quantity := quantity;
              tx_TotalPrice := totalPrice;
              tx_Stock := stock |}
  end end end end end.

(** The body of one parse task: split the line, parse the record. *)
Definition parseLine (line : string) : option Transaction :=
  parseTransactionFast (Split line).
End Parsing.

(** ** Streaming ingestion *)

Definition batchSize : Z := 10000.

Inductive Error :=
  | ErrOpenFile
  | ErrEmptyFile
  | ErrCanceled
  | ErrScan
  | ErrNoValidRecords
  | ErrProcessCSV (cause : Error).

(** What the polls of [ctx.Done()] observe: [doneAtScan i] in the scanning
    loop before data line [i] is appended, [doneAtParse i] in the parse task
    of data line [i]. *)
Record Context := {
  doneAtScan : nat → bool;
  doneAtParse : nat → bool
}.

Definition Background : Context :=
  {| doneAtScan := λ _, false; doneAtParse := λ _, false |}.

Section Ingestion.
Context `{!StdLib} `{!ChanOrder}.

(** One batch. A task that sees the context cancelled fails the group and
    the batch is not merged. Every task sends its result, a Transaction or
    the invalid mark; the valid ones are folded in the order they arrive on
    the channel. [first] is the index of the batch's first line. *)
Definition processBatch (ctx : Context) (first : nat) (batch : list string)
    (global : Groups) (recordCount : Z) : Error + (Groups * Z) :=
  if existsb (doneAtParse ctx) (seq first (length batch)) then inl ErrCanceled
  else
    let valid := omap id (arrival (parseLine <$> batch)) in
    let local := aggregateAll emptyGroups valid in
    let localCount := Z.of_nat (length valid) in
    inr (mergeBatch local global, int_add recordCount localCount).

(** The loop [for scanner.Scan() { ... }] over the data lines; [i] is the
    index of the next line and [batch] the lines collected so far. *)
Fixpoint scanLoop (ctx : Context) (rows : list string) (i : nat)
    (batch : list string) (global : Groups) (recordCount : Z)
    : Error + (list string * Groups * Z) :=
  match rows with
  | [] => inr (batch, global, recordCount)
  | line :: rest =>
      if doneAtScan ctx i then inl ErrCanceled else
      let batch' := batch ++ [line] in
      if batchSize <=? Z.of_nat (length batch') then
        match processBatch ctx (S i - length batch') batch' global recordCount with
        | inl e => inl e
        | inr (global', recordCount') =>
            scanLoop ctx rest (S i) [] global' recordCount'
        end
      else scanLoop ctx rest (S i) batch' global recordCount
  end.
End Ingestion.

(** A source file as the scanner delivers it: its lines, and whether
    [scanner.Err()] is non-nil once scanning stops. *)
Record SourceFile := {
  sf_modTime : Time;
  sf_lines : list string;
  sf_scanErr : bool
}.

Section Stream.
Context `{!StdLib} `{!SliceSort} `{!MapRange} `{!ChanOrder}.

(** [file] is the result of [os.Open]; [now] the reading of [time.Now()]
    when the snapshot is built. *)
Definition streamProcessCSV (a : Analytics) (ctx : Context)
    (file : option SourceFile) (now : Time) : Analytics * option Error :=
  match file with
  | None => (a, Some ErrOpenFile)
  | Some f =>
      match sf_lines f with
      | [] => (a, Some ErrEmptyFile)
      | _header :: rows =>
          match scanLoop ctx rows 0 [] emptyGroups 0 with
          | inl e => (a, Some e)
          | inr (batch, global, recordCount) =>
              let rest :=
                if 0 <? Z.of_nat (length batch)
                then processBatch ctx (length rows - length batch) batch
                       global recordCount
                else inr (global, recordCount) in
              match rest with
              | inl e => (a, Some e)
              | inr (global', recordCount') =>
                  if sf_scanErr f then (a, Some ErrScan)
                  else if recordCount' =? 0 then (a, Some ErrNoValidRecords)
                  else
                    ({| precomputed := finalize global' now recordCount';
                        csvPath := csvPath a;
                        recordsProcessed := recordCount' |}, None)
              end
          end
      end
  end.
End Stream.

(** ** Snapshot cache *)

Definition cacheVersion : string := "v1".
Definition cacheDir : string := ".cache".

(** [strings.ReplaceAll(s, "/", "_")]. *)
Fixpoint replaceSlashes (s : string) : string :=
  match s with
  | EmptyString => EmptyString
  | String c rest =>
      String (if Ascii.eqb c "/"%char then "_"%char else c) (replaceSlashes rest)
  end.

Definition getCacheFilename (csvPath : string) : string :=
  cacheDir +:+ "/" +:+ replaceSlashes csvPath +:+ "_" +:+ cacheVersion +:+ ".gob".

(** A file of the cache directory: a gob stream that decodes to a snapshot,
    or bytes the decoder rejects. *)
Inductive CacheBlob :=
  | Gob (data : PrecomputedData)
  | Corrupt.

(** The files a load touches: the cache directory by file name, the source
    files by path, and whether the cache directory can be written. *)
Record FileSystem := {
  fs_cache : gmap string CacheBlob;
  fs_source : gmap string SourceFile;
  fs_writable : bool
}.

Inductive CacheError :=
  | CacheOpenFailed
  | CacheDecodeFailed.

Definition loadFromCache (fs : FileSystem) (csvPath : string)
    : CacheError + PrecomputedData :=
  match fs_cache fs !! getCacheFilename csvPath with
  | None => inl CacheOpenFailed
  | Some Corrupt => inl CacheDecodeFailed
  | Some (Gob data) => inr data
  end.

(** [None] is a nil error; the encoder writes the published snapshot. *)
Definition saveToCache (a : Analytics) (fs : FileSystem) (csvPath : string)
    : FileSystem * bool :=
  if fs_writable fs then
    ({| fs_cache := <[getCacheFilename csvPath := Gob (precomputed a)]> (fs_cache fs);
        fs_source := fs_source fs;
        fs_writable := fs_writable fs |}, true)
  else (fs, false).

Inductive LogEvent :=
  | LoadedFromCache (records : Z)
  | ProcessingCSVFile (filename : string)
  | FailedToSaveCache
  | ProcessingComplete (records : Z).

Record LoadResult := {
  lr_analytics : Analytics;
  lr_fs : FileSystem;
  lr_log : list LogEvent;
  lr_err : option Error
}.

Definition setCsvPath (a : Analytics) (filename : string) : Analytics :=
  {| precomputed := precomputed a; csvPath := filename;
     recordsProcessed := recordsProcessed a |}.

(** The test [err == nil && fileInfo.ModTime().Before(cached.LastModified)]
    on the result of [os.Stat]. *)
Definition cacheFresh (fs : FileSystem) (filename : string)
    (cached : PrecomputedData) : bool :=
  match fs_source fs !! filename with
  | None => false
  | Some f => Before (sf_modTime f) (pd_LastModified cached)
  end.

Section Load.
Context `{!StdLib} `{!SliceSort} `{!MapRange} `{!ChanOrder}.

Definition recompute (a : Analytics) (ctx : Context) (fs : FileSystem)
    (filename : string) (now : Time) : LoadResult :=
  match streamProcessCSV a ctx (fs_source fs !! filename) now with
  | (a', Some e) =>
      {| lr_analytics := a'; lr_fs := fs;
         lr_log := [ProcessingCSVFile filename];
         lr_err := Some (ErrProcessCSV e) |}
  | (a', None) =>
      let '(fs', saved) := saveToCache a' fs filename in
      {| lr_analytics := a'; lr_fs := fs';
         lr_log := [ProcessingCSVFile filename]
                   ++ (if saved then [] else [FailedToSaveCache])
                   ++ [ProcessingComplete (recordsProcessed a')];
         lr_err := None |}
  end.

Definition LoadFromCSV (a : Analytics) (ctx : Context) (fs : FileSystem)
    (filename : string) (now : Time) : LoadResult :=
  let a := setCsvPath a filename in
  match loadFromCache fs filename with
  | inr cached =>
      if cacheFresh fs filename cached then
        {| lr_analytics := setPrecomputed a cached; lr_fs := fs;
           lr_log := [LoadedFromCache (pd_RecordCount cached)];
           lr_err := None |}
      else recompute a ctx fs filename now
  | inl _ => recompute a ctx fs filename now
  end.
End Load.

(** * Properties *)

(** ** Wrapped arithmetic *)

Lemma int_wrap_small z : int_range z → int_wrap z = z.
Proof.
  unfold int_range, int_wrap. intros Hz.
  rewrite Z.mod_small by lia. lia.
Qed.

Lemma int_wrap_add_l a b : int_wrap (int_wrap a + b) = int_wrap (a + b).
Proof.
  unfold int_wrap.
  replace ((a + 2 ^ 63) mod 2 ^ 64 - 2 ^ 63 + b + 2 ^ 63)
    with ((a + 2 ^ 63) mod 2 ^ 64 + b) by lia.
  rewrite Zplus_mod_idemp_l. do 2 f_equal. lia.
Qed.

Lemma int_wrap_add_r a b : int_wrap (a + int_wrap b) = int_wrap (a + b).
Proof. rewrite (Z.add_comm a), int_wrap_add_l. f_equal. lia. Qed.

Lemma int_add_wrap a b : int_add (int_wrap a) (int_wrap b) = int_wrap (a + b).
Proof. unfold int_add. by rewrite int_wrap_add_l, int_wrap_add_r. Qed.

Lemma int_add_0_wrap a : int_add 0 (int_wrap a) = int_wrap a.
Proof. unfold int_add. by rewrite int_wrap_add_r. Qed.

Lemma int_add_wrap_l a b : int_add (int_wrap a) b = int_wrap (a + b).
Proof. unfold int_add. by rewrite int_wrap_add_l. Qed.

(** ** Keyed accumulation, generically

    The four aggregation maps and their merges are instances of one scheme:
    [aggr] folds the transactions with [upsert], [mergeInto] walks a local
    map and upserts every entry into the global one. *)

Lemma upsert_lookup {A} k (fresh : A) step (m : gmap string A) j :
  upsert k fresh step m !! j =
    if decide (k = j) then Some (step (default fresh (m !! k))) else m !! j.
Proof. unfold upsert. apply lookup_insert. Qed.

Section Keyed.
Context {A : Type}.
Variables (key : Transaction → string) (fresh : Transaction → A)
          (step : Transaction → A → A) (clone : A → A) (acc : A → A → A).

Definition aggr (m : gmap string A) (l : list Transaction) : gmap string A :=
  foldl (λ m tx, upsert (key tx) (fresh tx) (step tx) m) m l.

Definition mergeInto (local global : gmap string A) : gmap string A :=
  map_fold (λ k v g, upsert k (clone v) (acc v) g) global local.

(** What happens to the entry of one key while the transactions go by. *)
Definition evolve (k : string) (s : option A) (l : list Transaction) : option A :=
  foldl (λ s tx, if decide (key tx = k)
                 then Some (step tx (default (fresh tx) s)) else s) s l.

(** The transactions that touch key [k]. *)
Definition touching (k : string) (l : list Transaction) : list Transaction :=
  filter (λ tx, key tx = k) l.

Lemma evolve_cons k s tx l :
  evolve k s (tx :: l) =
    evolve k (if decide (key tx = k)
              then Some (step tx (default (fresh tx) s)) else s) l.
Proof. reflexivity. Qed.

Lemma evolve_cons_eq k s tx l :
  key tx = k →
  evolve k s (tx :: l) = evolve k (Some (step tx (default (fresh tx) s))) l.
Proof. intros. by rewrite evolve_cons, decide_True. Qed.

Lemma evolve_cons_ne k s tx l : key tx ≠ k → evolve k s (tx :: l) = evolve k s l.
Proof. intros. by rewrite evolve_cons, decide_False. Qed.

Lemma touching_cons_eq k tx l : key tx = k → touching k (tx :: l) = tx :: touching k l.
Proof. intros. unfold touching. by rewrite filter_cons_True. Qed.

Lemma touching_cons_ne k tx l : key tx ≠ k → touching k (tx :: l) = touching k l.
Proof. intros. unfold touching. by rewrite filter_cons_False. Qed.

Lemma touching_app k l1 l2 : touching k (l1 ++ l2) = touching k l1 ++ touching k l2.
Proof. apply filter_app. Qed.

Lemma touching_perm k l l' : l ≡ₚ l' → touching k l ≡ₚ touching k l'.
Proof. intros Hp. unfold touching. by rewrite Hp. Qed.

Lemma aggr_lookup l m k : aggr m l !! k = evolve k (m !! k) l.
Proof.
  revert m. induction l as [|tx l IH]; intros m; [done|].
  unfold aggr, evolve in *. cbn [foldl]. rewrite IH, upsert_lookup.
  by destruct (decide (key tx = k)) as [->|].
Qed.

Lemma evolve_touching k s l : evolve k s l = evolve k s (touching k l).
Proof.
  revert s. induction l as [|tx l IH]; intros s; [done|].
  unfold touching. rewrite filter_cons. unfold evolve in *. cbn [foldl].
  destruct (decide (key tx = k)) as [Hk|Hk]; cbn [foldl].
  - rewrite decide_True by done. apply IH.
  - apply IH.
Qed.

Lemma evolve_None k l : evolve k None l = None ↔ touching k l = [].
Proof.
  rewrite evolve_touching. unfold touching.
  destruct (filter _ l) as [|tx f] eqn:Hf; [done|].
  split; [|done]. intros Hev. exfalso.
  assert (key tx = k) as Hk.
  { assert (tx ∈ filter (λ tx, key tx = k) l) as Hin by (rewrite Hf; left).
    by apply list_elem_of_filter in Hin as [? _]. }
  assert (∀ f s, is_Some s → is_Some (evolve k s f)) as Hsome.
  { clear. intros f. induction f as [|t f IH]; intros s Hs; [done|].
    unfold evolve in *. cbn [foldl]. apply IH. by destruct (decide _). }
  destruct (Hsome f (Some (step tx (default (fresh tx) None)))) as [x Hx];
    [done|].
  unfold evolve in Hev, Hx. cbn [foldl] in Hev.
  rewrite decide_True in Hev by done. congruence.
Qed.

Lemma mergeInto_lookup local global k :
  mergeInto local global !! k =
    match local !! k with
    | None => global !! k
    | Some v => Some (acc v (default (clone v) (global !! k)))
    end.
Proof.
  unfold mergeInto. revert k.
  apply (map_fold_weak_ind (λ r m, ∀ k, r !! k =
    match m !! k with
    | None => global !! k
    | Some v => Some (acc v (default (clone v) (global !! k)))
    end)).
  - intros k. by rewrite lookup_empty.
  - intros i x m r Hi IH k. rewrite upsert_lookup, lookup_insert.
    destruct (decide (i = k)) as [->|]; [|apply IH].
    by rewrite IH, Hi.
Qed.
End Keyed.

(** Left-to-right float sum, as a chain of [+=] from the zero value. *)
Definition fsum (l : list float) : float := foldl PrimFloat.add 0%float l.

(** The total [mergeInto] leaves for a key from the prices [p1] and [p2] that
    two batches saw for it: each batch total is added to the previous value,
    which is zero when the key is new. *)
Definition mergedTotal (p1 p2 : list float) : option float :=
  match p1, p2 with
  | [], [] => None
  | _ :: _, [] => Some (0 + fsum p1)%float
  | [], _ :: _ => Some (0 + fsum p2)%float
  | _ :: _, _ :: _ => Some (0 + fsum p1 + fsum p2)%float
  end.

Definition wholeTotal (p : list float) : option float :=
  match p with
  | [] => None
  | _ :: _ => Some (fsum p)
  end.

Section KeyedLaws.
Context {A : Type}.
Variables (key : Transaction → string) (fresh : Transaction → A)
          (step : Transaction → A → A) (clone : A → A) (acc : A → A → A).

Local Abbreviation aggrK := (aggr key fresh step).
Local Abbreviation mergeK := (mergeInto clone acc).
Local Abbreviation evolveK := (evolve key fresh step).
Local Abbreviation touchK := (touching key).

(** *** An integer counter of the entry *)

Variables (count : A → Z) (weight : Transaction → Z).
Hypothesis count_fresh : ∀ tx, count (fresh tx) = 0.
Hypothesis count_step : ∀ tx e, count (step tx e) = int_add (count e) (weight tx).
Hypothesis count_clone : ∀ v, count (clone v) = 0.
Hypothesis count_acc : ∀ v e, count (acc v e) = int_add (count e) (count v).

Definition weights (l : list Transaction) : Z :=
  foldr (λ tx s, weight tx + s) 0 l.

Definition countOf (k : string) (l : list Transaction) : option Z :=
  match touchK k l with
  | [] => None
  | f => Some (int_wrap (weights f))
  end.

Lemma weights_app l1 l2 : weights (l1 ++ l2) = weights l1 + weights l2.
Proof.
  unfold weights. induction l1 as [|tx l1 IH]; cbn; [done|]. rewrite IH. lia.
Qed.

Lemma weights_perm l1 l2 : l1 ≡ₚ l2 → weights l1 = weights l2.
Proof. unfold weights. induction 1; cbn in *; lia. Qed.

Lemma count_evolve_Some k e c l :
  count e = int_wrap c →
  count <$> evolveK k (Some e) l = Some (int_wrap (c + weights (touchK k l))).
Proof.
  revert e c. induction l as [|tx l IH]; intros e c He.
  - cbn. by rewrite He, Z.add_0_r.
  - destruct (decide (key tx = k)) as [Hk|Hk].
    + rewrite evolve_cons_eq, touching_cons_eq by done.
      rewrite (IH _ (c + weight tx)).
      * cbn [weights foldr]. do 2 f_equal. unfold weights. lia.
      * cbn. by rewrite count_step, He, int_add_wrap_l.
    + rewrite evolve_cons_ne, touching_cons_ne by done. by apply IH.
Qed.

Lemma count_evolve_None k l : count <$> evolveK k None l = countOf k l.
Proof.
  unfold countOf. induction l as [|tx l IH]; [done|].
  destruct (decide (key tx = k)) as [Hk|Hk].
  - rewrite evolve_cons_eq, touching_cons_eq by done.
    cbn [default]. rewrite (count_evolve_Some k _ (weight tx)).
    + done.
    + rewrite count_step, count_fresh. unfold int_add.
      by rewrite Z.add_0_l.
  - by rewrite evolve_cons_ne, touching_cons_ne.
Qed.

Lemma count_aggr k l : count <$> aggrK ∅ l !! k = countOf k l.
Proof. by rewrite aggr_lookup, lookup_empty, count_evolve_None. Qed.

(** The counter of a merge of two batches, key by key. *)
Lemma count_merge2 k l1 l2 :
  count <$> mergeK (aggrK ∅ l2) (mergeK (aggrK ∅ l1) ∅) !! k =
    countOf k (l1 ++ l2).
Proof.
  rewrite !mergeInto_lookup, lookup_empty.
  pose proof (count_aggr k l1) as H1. pose proof (count_aggr k l2) as H2.
  unfold countOf in *. rewrite touching_app.
  destruct (aggrK ∅ l1 !! k) as [v1|], (aggrK ∅ l2 !! k) as [v2|];
    destruct (touchK k l1) as [|t1 f1], (touchK k l2) as [|t2 f2];
    cbn in H1, H2 |- *; try discriminate; simplify_eq; try done.
  - rewrite !count_acc, count_clone, H1, H2.
    rewrite int_add_0_wrap, int_add_wrap. do 2 f_equal.
    pose proof (weights_app f1 (t2 :: f2)) as Hw.
    unfold weights in Hw. cbn [foldr] in Hw. lia.
  - rewrite count_acc, count_clone, H1, int_add_0_wrap.
    by rewrite app_nil_r.
  - by rewrite count_acc, count_clone, H2, int_add_0_wrap.
Qed.

Lemma countOf_perm k l l' : l ≡ₚ l' → countOf k l = countOf k l'.
Proof.
  intros Hp. unfold countOf.
  pose proof (touching_perm key k _ _ Hp) as Hf.
  pose proof (weights_perm _ _ Hf) as Hw.
  destruct (touchK k l) as [|t f], (touchK k l') as [|t' f'];
    try done.
  - by apply Permutation_nil_cons in Hf.
  - symmetry in Hf. by apply Permutation_nil_cons in Hf.
  - by rewrite Hw.
Qed.

(** Counters are additive over any two-way partition of the input. *)
Lemma count_additive l l1 l2 :
  l ≡ₚ l1 ++ l2 →
  count <$> mergeK (aggrK ∅ l2) (mergeK (aggrK ∅ l1) ∅) = count <$> aggrK ∅ l.
Proof.
  intros Hp. apply map_eq. intros k. rewrite !lookup_fmap.
  rewrite count_merge2, count_aggr. symmetry. by apply countOf_perm.
Qed.
End KeyedLaws.

Section KeyedIdent.
Context {A I : Type}.
Variables (key : Transaction → string) (fresh : Transaction → A)
          (step : Transaction → A → A) (clone : A → A) (acc : A → A → A).

Local Abbreviation aggrK := (aggr key fresh step).
Local Abbreviation mergeK := (mergeInto clone acc).
Local Abbreviation evolveK := (evolve key fresh step).
Local Abbreviation touchK := (touching key).

(** *** Fields that are set when the entry is created *)

Variable ident : A → I.
Hypothesis ident_step : ∀ tx e, ident (step tx e) = ident e.
Hypothesis ident_clone : ∀ v, ident (clone v) = ident v.
Hypothesis ident_acc : ∀ v e, ident (acc v e) = ident e.

Lemma ident_evolve_Some k e l : ident <$> evolveK k (Some e) l = Some (ident e).
Proof.
  revert e. induction l as [|tx l IH]; intros e; [done|].
  destruct (decide (key tx = k)) as [Hk|Hk].
  - rewrite evolve_cons_eq by done. rewrite IH. cbn. by rewrite ident_step.
  - rewrite evolve_cons_ne by done. apply IH.
Qed.

(** The entry keeps the fields of the first transaction that touched it. *)
Lemma ident_aggr k l :
  ident <$> aggrK ∅ l !! k = (λ tx, ident (fresh tx)) <$> head (touchK k l).
Proof.
  rewrite aggr_lookup, lookup_empty.
  induction l as [|tx l IH]; [done|].
  destruct (decide (key tx = k)) as [Hk|Hk].
  - rewrite evolve_cons_eq, touching_cons_eq by done.
    rewrite ident_evolve_Some. cbn. by rewrite ident_step.
  - by rewrite evolve_cons_ne, touching_cons_ne.
Qed.

(** Created fields survive a merge when the first batch is a prefix of the
    pass and the second the rest. *)
Lemma ident_additive l1 l2 :
  ident <$> mergeK (aggrK ∅ l2) (mergeK (aggrK ∅ l1) ∅) =
  ident <$> aggrK ∅ (l1 ++ l2).
Proof.
  apply map_eq. intros k. rewrite !lookup_fmap.
  rewrite ident_aggr, touching_app.
  rewrite !mergeInto_lookup, lookup_empty.
  pose proof (ident_aggr k l1) as H1. pose proof (ident_aggr k l2) as H2.
  destruct (aggrK ∅ l1 !! k) as [v1|], (aggrK ∅ l2 !! k) as [v2|];
    destruct (touchK k l1) as [|t1 f1], (touchK k l2) as [|t2 f2];
    cbn in H1, H2 |- *; try discriminate; simplify_eq;
    rewrite ?ident_acc, ?ident_clone; congruence.
Qed.
End KeyedIdent.

Section KeyedTotal.
Context {A : Type}.
Variables (key : Transaction → string) (fresh : Transaction → A)
          (step : Transaction → A → A) (clone : A → A) (acc : A → A → A).

Local Abbreviation aggrK := (aggr key fresh step).
Local Abbreviation mergeK := (mergeInto clone acc).
Local Abbreviation evolveK := (evolve key fresh step).
Local Abbreviation touchK := (touching key).

(** *** A float64 total of the entry *)

Variables (total : A → float) (price : Transaction → float).
Hypothesis total_fresh : ∀ tx, total (fresh tx) = 0%float.
Hypothesis total_step : ∀ tx e, total (step tx e) = (total e + price tx)%float.
Hypothesis total_clone : ∀ v, total (clone v) = 0%float.
Hypothesis total_acc : ∀ v e, total (acc v e) = (total e + total v)%float.

Lemma total_evolve_Some k e l :
  total <$> evolveK k (Some e) l =
    Some (foldl PrimFloat.add (total e) (price <$> touchK k l)).
Proof.
  revert e. induction l as [|tx l IH]; intros e; [done|].
  destruct (decide (key tx = k)) as [Hk|Hk].
  - rewrite evolve_cons_eq, touching_cons_eq by done.
    rewrite IH. cbn. by rewrite total_step.
  - rewrite evolve_cons_ne, touching_cons_ne by done. apply IH.
Qed.

(** One pass leaves the left-to-right sum of the prices of the key. *)
Lemma total_aggr k l :
  total <$> aggrK ∅ l !! k = wholeTotal (price <$> touchK k l).
Proof.
  rewrite aggr_lookup, lookup_empty.
  induction l as [|tx l IH]; [done|].
  destruct (decide (key tx = k)) as [Hk|Hk].
  - rewrite evolve_cons_eq, touching_cons_eq by done.
    rewrite total_evolve_Some. cbn. by rewrite total_step, total_fresh.
  - by rewrite evolve_cons_ne, touching_cons_ne.
Qed.

(** A merge of two batches adds the two batch sums. *)
Lemma total_merge2 k l1 l2 :
  total <$> mergeK (aggrK ∅ l2) (mergeK (aggrK ∅ l1) ∅) !! k =
    mergedTotal (price <$> touchK k l1) (price <$> touchK k l2).
Proof.
  rewrite !mergeInto_lookup, lookup_empty.
  pose proof (total_aggr k l1) as H1. pose proof (total_aggr k l2) as H2.
  destruct (aggrK ∅ l1 !! k) as [v1|], (aggrK ∅ l2 !! k) as [v2|];
    destruct (touchK k l1) as [|t1 f1], (touchK k l2) as [|t2 f2];
    cbn in H1, H2 |- *; try discriminate; simplify_eq;
    rewrite ?total_acc, ?total_clone, ?H1, ?H2; done.
Qed.
End KeyedTotal.

(** ** The four maps as instances of the scheme *)

Definition monthKey (tx : Transaction) : string := FormatMonth (tx_Date tx).

Definition addMonthly (tx : Transaction) (v : float) : float :=
  (v + tx_TotalPrice tx)%float.

Lemma countryGroups_aggregateAll g l :
  countryGroups (aggregateAll g l) =
    aggr countryKey newCountry addCountry (countryGroups g) l.
Proof. revert g. induction l as [|tx l IH]; intros g; [done|]. apply IH. Qed.

Lemma productGroups_aggregateAll g l :
  productGroups (aggregateAll g l) =
    aggr tx_ProductName newProduct (λ _, addProduct) (productGroups g) l.
Proof. revert g. induction l as [|tx l IH]; intros g; [done|]. apply IH. Qed.

Lemma monthlyGroups_aggregateAll g l :
  monthlyGroups (aggregateAll g l) =
    aggr monthKey (λ _, 0%float) addMonthly (monthlyGroups g) l.
Proof. revert g. induction l as [|tx l IH]; intros g; [done|]. apply IH. Qed.

Lemma regionGroups_aggregateAll g l :
  regionGroups (aggregateAll g l) =
    aggr tx_Region newRegion addRegion (regionGroups g) l.
Proof. revert g. induction l as [|tx l IH]; intros g; [done|]. apply IH. Qed.

(** Aggregating the whole input in one pass, as [computeAnalytics] does. *)
Definition onePass (l : list Transaction) : Groups := aggregateAll emptyGroups l.

(** Aggregating two batches into local maps and merging each into the global
    maps, as two calls of [processBatch] do. *)
Definition twoBatches (l1 l2 : list Transaction) : Groups :=
  mergeBatch (aggregateAll emptyGroups l2)
    (mergeBatch (aggregateAll emptyGroups l1) emptyGroups).

Definition crIdent (e : CountryRevenue) : string * string * string :=
  (cr_Country e, cr_ProductName e, cr_Category e).

Definition pfIdent (e : ProductFrequency) : string * string * Z :=
  (pf_ProductName e, pf_Category e, pf_StockQuantity e).

Definition countryPrices (k : string) (l : list Transaction) : list float :=
  tx_TotalPrice <$> touching countryKey k l.

Definition monthPrices (k : string) (l : list Transaction) : list float :=
  tx_TotalPrice <$> touching monthKey k l.

Definition regionPrices (k : string) (l : list Transaction) : list float :=
  tx_TotalPrice <$> touching tx_Region k l.

Ltac unfold_groups :=
  unfold twoBatches, onePass, mergeBatch; cbn [countryGroups productGroups
    monthlyGroups regionGroups emptyGroups];
  rewrite ?countryGroups_aggregateAll, ?productGroups_aggregateAll,
    ?monthlyGroups_aggregateAll, ?regionGroups_aggregateAll;
  cbn [countryGroups productGroups monthlyGroups regionGroups emptyGroups].

Lemma country_counts_additive l l1 l2 :
  l ≡ₚ l1 ++ l2 →
  cr_Transactions <$> countryGroups (twoBatches l1 l2) =
  cr_Transactions <$> countryGroups (onePass l).
Proof.
  intros Hp. unfold_groups.
  by apply (count_additive countryKey newCountry addCountry cloneCountry
              accCountry cr_Transactions (λ _, 1)).
Qed.

Lemma product_counts_additive l l1 l2 :
  l ≡ₚ l1 ++ l2 →
  pf_Frequency <$> productGroups (twoBatches l1 l2) =
  pf_Frequency <$> productGroups (onePass l).
Proof.
  intros Hp. unfold_groups.
  by apply (count_additive tx_ProductName newProduct (λ _, addProduct)
              cloneProduct accProduct pf_Frequency (λ _, 1)).
Qed.

Lemma region_counts_additive l l1 l2 :
  l ≡ₚ l1 ++ l2 →
  rr_ItemsSold <$> regionGroups (twoBatches l1 l2) =
  rr_ItemsSold <$> regionGroups (onePass l).
Proof.
  intros Hp. unfold_groups.
  by apply (count_additive tx_Region newRegion addRegion cloneRegion
              accRegion rr_ItemsSold tx_Quantity).
Qed.

Lemma monthly_keys_additive l l1 l2 :
  l ≡ₚ l1 ++ l2 →
  dom (monthlyGroups (twoBatches l1 l2)) = dom (monthlyGroups (onePass l)).
Proof.
  intros Hp. unfold_groups.
  pose proof (count_additive monthKey (λ _, 0%float) addMonthly (λ _, 0%float)
                (λ v e, (e + v)%float) (λ _, 0) (λ _, 0)) as Hc.
  specialize (Hc ltac:(done) ltac:(done) ltac:(done) ltac:(done) l l1 l2 Hp).
  apply (f_equal dom) in Hc. by rewrite !dom_fmap_L in Hc.
Qed.

Lemma country_ident_additive l1 l2 :
  crIdent <$> countryGroups (twoBatches l1 l2) =
  crIdent <$> countryGroups (onePass (l1 ++ l2)).
Proof.
  unfold_groups.
  by apply (ident_additive countryKey newCountry addCountry cloneCountry
              accCountry crIdent).
Qed.

Lemma product_ident_additive l1 l2 :
  pfIdent <$> productGroups (twoBatches l1 l2) =
  pfIdent <$> productGroups (onePass (l1 ++ l2)).
Proof.
  unfold_groups.
  by apply (ident_additive tx_ProductName newProduct (λ _, addProduct)
              cloneProduct accProduct pfIdent).
Qed.

(** Batches that follow the order of the pass leave the product map of the
    pass: it holds no float. *)
Lemma product_additive l1 l2 :
  productGroups (twoBatches l1 l2) = productGroups (onePass (l1 ++ l2)).
Proof.
  apply map_eq. intros k.
  assert (pfIdent <$> productGroups (twoBatches l1 l2) !! k =
          pfIdent <$> productGroups (onePass (l1 ++ l2)) !! k) as Hi
    by (rewrite <- !lookup_fmap; by rewrite product_ident_additive).
  assert (pf_Frequency <$> productGroups (twoBatches l1 l2) !! k =
          pf_Frequency <$> productGroups (onePass (l1 ++ l2)) !! k) as Hc
    by (rewrite <- !lookup_fmap;
        by rewrite (product_counts_additive (l1 ++ l2) l1 l2)).
  destruct (productGroups (twoBatches l1 l2) !! k) as [[]|],
           (productGroups (onePass (l1 ++ l2)) !! k) as [[]|];
    cbn in Hi, Hc; by simplify_eq.
Qed.

Lemma country_total_merged l1 l2 k :
  cr_TotalRevenue <$> countryGroups (twoBatches l1 l2) !! k =
    mergedTotal (countryPrices k l1) (countryPrices k l2).
Proof.
  unfold_groups.
  by apply (total_merge2 countryKey newCountry addCountry cloneCountry
              accCountry cr_TotalRevenue tx_TotalPrice).
Qed.

Lemma country_total_whole l k :
  cr_TotalRevenue <$> countryGroups (onePass l) !! k =
    wholeTotal (countryPrices k l).
Proof.
  unfold_groups.
  by apply (total_aggr countryKey newCountry addCountry
              cr_TotalRevenue tx_TotalPrice).
Qed.

Lemma monthly_total_merged l1 l2 k :
  monthlyGroups (twoBatches l1 l2) !! k =
    mergedTotal (monthPrices k l1) (monthPrices k l2).
Proof.
  unfold_groups.
  pose proof (total_merge2 monthKey (λ _, 0%float) addMonthly (λ _, 0%float)
                (λ v e, (e + v)%float) id tx_TotalPrice) as Ht.
  specialize (Ht ltac:(done) ltac:(done) ltac:(done) ltac:(done) k l1 l2).
  by rewrite option_fmap_id in Ht.
Qed.

Lemma monthly_total_whole l k :
  monthlyGroups (onePass l) !! k = wholeTotal (monthPrices k l).
Proof.
  unfold_groups.
  pose proof (total_aggr monthKey (λ _, 0%float) addMonthly id tx_TotalPrice) as Ht.
  specialize (Ht ltac:(done) ltac:(done) k l).
  by rewrite option_fmap_id in Ht.
Qed.

Lemma region_total_merged l1 l2 k :
  rr_Revenue <$> regionGroups (twoBatches l1 l2) !! k =
    mergedTotal (regionPrices k l1) (regionPrices k l2).
Proof.
  unfold_groups.
  by apply (total_merge2 tx_Region newRegion addRegion cloneRegion
              accRegion rr_Revenue tx_TotalPrice).
Qed.

Lemma region_total_whole l k :
  rr_Revenue <$> regionGroups (onePass l) !! k = wholeTotal (regionPrices k l).
Proof.
  unfold_groups.
  by apply (total_aggr tx_Region newRegion addRegion rr_Revenue tx_TotalPrice).
Qed.

(** ** Sample data *)

Set Warnings "-inexact-float".

Definition jan15 : Time := {| instant := 1673740800; year := 2023; month := 1 |}.

Definition sale (country region product category : string) (total : float)
    (quantity stock : Z) : Transaction :=
  {| tx_Date := jan15; tx_Country := country; tx_Region := region;
     tx_ProductName := product; tx_Category := category; tx_Price := total;
     tx_Quantity := quantity; tx_TotalPrice := total; tx_Stock := stock |}.

Definition dime : Transaction := sale "USA" "California" "Pen" "Office" 0.1 1 50.
Definition fifth : Transaction := sale "USA" "California" "Pen" "Office" 0.2 1 60.
Definition third : Transaction := sale "USA" "California" "Pen" "Office" 0.3 1 70.

Example one_pass_month :
  monthlyGroups (onePass [dime; fifth; third]) !! "2023-01"
  = Some 0.60000000000000009%float.
Proof. vm_compute. reflexivity. Qed.

Example two_batches_month :
  monthlyGroups (twoBatches [dime] [fifth; third]) !! "2023-01"
  = Some 0.59999999999999998%float.
Proof. vm_compute. reflexivity. Qed.

(** ** C1: additivity of batch merging *)

(** C1, as stated, fails. Two batches that follow the order of the pass
    ([dime], then [fifth] and [third]) leave a different float64 total from
    the one pass, since float addition is not associative; and a batch split
    against the order of the pass ([fifth] before [dime]) leaves the stock
    of another transaction in the product entry. *)
Lemma additivity_counterexample :
  twoBatches [dime] [fifth; third] ≠ onePass ([dime] ++ [fifth; third]) ∧
  ([dime; fifth] ≡ₚ [fifth] ++ [dime] ∧
   productGroups (twoBatches [fifth] [dime]) ≠ productGroups (onePass [dime; fifth])).
Proof.
  split; [|split].
  - intros H.
    apply (f_equal (λ g, match monthlyGroups g !! "2023-01" with
                         | Some v => PrimFloat.eqb v 0.6
                         | None => false
                         end)) in H.
    vm_compute in H. discriminate.
  - apply perm_swap.
  - intros H.
    apply (f_equal (λ m, pf_StockQuantity <$> m !! "Pen")) in H.
    vm_compute in H. discriminate.
Qed.

(** C1 (amended): for every input [l] split into two batches [l1], [l2] in
    any way, merging the batch maps leaves the same keys and the same integer
    counters (transactions, frequency, items sold) as one pass over [l]; when
    the batches follow the order of the pass, the product map is the same map
    and the country entries carry the same country, product and category.
    The float64 totals of a key are the sum of the two batch sums, where the
    pass has the left-to-right sum of all its prices. *)
Theorem merge_additive l l1 l2 :
  l ≡ₚ l1 ++ l2 →
  (cr_Transactions <$> countryGroups (twoBatches l1 l2) =
     cr_Transactions <$> countryGroups (onePass l) ∧
   pf_Frequency <$> productGroups (twoBatches l1 l2) =
     pf_Frequency <$> productGroups (onePass l) ∧
   dom (monthlyGroups (twoBatches l1 l2)) = dom (monthlyGroups (onePass l)) ∧
   rr_ItemsSold <$> regionGroups (twoBatches l1 l2) =
     rr_ItemsSold <$> regionGroups (onePass l)) ∧
  (l = l1 ++ l2 →
   productGroups (twoBatches l1 l2) = productGroups (onePass l) ∧
   crIdent <$> countryGroups (twoBatches l1 l2) =
     crIdent <$> countryGroups (onePass l)) ∧
  (∀ k,
   cr_TotalRevenue <$> countryGroups (twoBatches l1 l2) !! k =
     mergedTotal (countryPrices k l1) (countryPrices k l2) ∧
   cr_TotalRevenue <$> countryGroups (onePass (l1 ++ l2)) !! k =
     wholeTotal (countryPrices k l1 ++ countryPrices k l2) ∧
   monthlyGroups (twoBatches l1 l2) !! k =
     mergedTotal (monthPrices k l1) (monthPrices k l2) ∧
   monthlyGroups (onePass (l1 ++ l2)) !! k =
     wholeTotal (monthPrices k l1 ++ monthPrices k l2) ∧
   rr_Revenue <$> regionGroups (twoBatches l1 l2) !! k =
     mergedTotal (regionPrices k l1) (regionPrices k l2) ∧
   rr_Revenue <$> regionGroups (onePass (l1 ++ l2)) !! k =
     wholeTotal (regionPrices k l1 ++ regionPrices k l2)).
Proof.
  intros Hp. split; [|split].
  - auto using country_counts_additive, product_counts_additive,
      monthly_keys_additive, region_counts_additive.
  - intros ->. split; [apply product_additive|apply country_ident_additive].
  - intros k.
    rewrite country_total_merged, monthly_total_merged, region_total_merged.
    rewrite country_total_whole, monthly_total_whole, region_total_whole.
    unfold countryPrices, monthPrices, regionPrices.
    by rewrite !touching_app, !fmap_app.
Qed.

Lemma merge_additive_witness :
  [dime; fifth; third] ≡ₚ [fifth] ++ [dime; third] ∧
  pf_Frequency <$> productGroups (twoBatches [fifth] [dime; third]) =
    pf_Frequency <$> productGroups (onePass [dime; fifth; third]).
Proof.
  assert ([dime; fifth; third] ≡ₚ [fifth] ++ [dime; third]) as Hp
    by apply perm_swap.
  split; [exact Hp|].
  exact (proj1 (proj2 (proj1 (merge_additive _ _ _ Hp)))).
Defined.

(** ** C4: what a product entry keeps *)

Definition seen (p : string) (l : list Transaction) : list Transaction :=
  touching tx_ProductName p l.

Definition firstSeen (p : string) (l : list Transaction) : option Transaction :=
  head (seen p l).

Definition lastSeen (p : string) (l : list Transaction) : option Transaction :=
  last (seen p l).

Lemma weights_one l : weights (λ _, 1) l = Z.of_nat (length l).
Proof. unfold weights. induction l as [|tx l IH]; cbn [foldr length]; lia. Qed.

Lemma seen_head_name p l t : firstSeen p l = Some t → tx_ProductName t = p.
Proof.
  unfold firstSeen, seen, touching. intros Hh.
  assert (t ∈ filter (λ tx, tx_ProductName tx = p) l) as Hin.
  { destruct (filter _ l); simplify_eq/=. left. }
  by apply list_elem_of_filter in Hin as [? _].
Qed.

Lemma product_entry l p t :
  firstSeen p l = Some t →
  productGroups (onePass l) !! p =
    Some {| pf_ProductName := p; pf_Category := tx_Category t;
            pf_Frequency := int_wrap (Z.of_nat (length (seen p l)));
            pf_StockQuantity := tx_Stock t |}.
Proof.
  intros Hh. pose proof (seen_head_name _ _ _ Hh) as Hname.
  pose proof (ident_aggr tx_ProductName newProduct (λ _, addProduct) pfIdent
                ltac:(done) p l) as Hi.
  pose proof (count_aggr tx_ProductName newProduct (λ _, addProduct)
                pf_Frequency (λ _, 1) ltac:(done) ltac:(done) p l) as Hc.
  unfold onePass. rewrite productGroups_aggregateAll. cbn [productGroups emptyGroups].
  unfold firstSeen, seen in *. unfold countOf in Hc.
  rewrite Hh in Hi. rewrite <- weights_one.
  destruct (aggr _ _ _ ∅ l !! p) as [[]|]; [|done].
  destruct (touching tx_ProductName p l); [done|].
  cbn in Hi, Hc. by simplify_eq.
Qed.

(** C4, as stated, fails: of two sales of the same product with stock 50 and
    then 60, the entry keeps 50, the stock of the first, where the last seen
    transaction has 60. *)
Lemma stock_last_seen_counterexample :
  pf_StockQuantity <$> productGroups (onePass [dime; fifth]) !! "Pen"
  ≠ tx_Stock <$> lastSeen "Pen" [dime; fifth].
Proof. vm_compute. discriminate. Qed.

(** C4 (amended): the entry of a product keeps the category and the stock of
    the first transaction seen for that product name, and counts the
    transactions seen; a merge of two batches that follow the order of the
    pass leaves that same entry. *)
Theorem product_first_seen l1 l2 p t :
  firstSeen p (l1 ++ l2) = Some t →
  productGroups (onePass (l1 ++ l2)) !! p =
    Some {| pf_ProductName := p; pf_Category := tx_Category t;
            pf_Frequency := int_wrap (Z.of_nat (length (seen p (l1 ++ l2))));
            pf_StockQuantity := tx_Stock t |} ∧
  productGroups (twoBatches l1 l2) !! p = productGroups (onePass (l1 ++ l2)) !! p.
Proof.
  intros Hh. split; [by apply product_entry|]. by rewrite product_additive.
Qed.

Lemma product_first_seen_witness :
  firstSeen "Pen" ([dime] ++ [fifth; third]) = Some dime ∧
  pf_StockQuantity <$> productGroups (twoBatches [dime] [fifth; third]) !! "Pen"
    = Some 50.
Proof.
  assert (firstSeen "Pen" ([dime] ++ [fifth; third]) = Some dime) as Hh
    by reflexivity.
  split; [exact Hh|].
  destruct (product_first_seen [dime] [fifth; third] "Pen" dime Hh) as [H1 H2].
  rewrite H2, H1. reflexivity.
Defined.

(** ** C2, C10: the truncating accessors *)

Lemma sliceTo_in_range {A} (s : list A) hi :
  0 ≤ hi ≤ Z.of_nat (length s) → sliceTo s hi = Returns (take (Z.to_nat hi) s).
Proof.
  intros Hhi. unfold sliceTo.
  by rewrite (proj2 (Z.leb_le _ _)), (proj2 (Z.leb_le _ _)) by lia.
Qed.

Lemma sliceTo_negative {A} (s : list A) hi : hi < 0 → sliceTo s hi = Panics.
Proof.
  intros Hhi. unfold sliceTo. by rewrite (proj2 (Z.leb_gt _ _)) by lia.
Qed.

Lemma truncate_prefix {A} (s : list A) limit :
  0 ≤ limit →
  (if Z.of_nat (length s) <=? limit then Returns s else sliceTo s limit)
  = Returns (take (Z.to_nat (Z.min limit (Z.of_nat (length s)))) s).
Proof.
  intros Hl. destruct (Z.leb_spec (Z.of_nat (length s)) limit).
  - rewrite Z.min_r, Nat2Z.id by lia. by rewrite firstn_all.
  - rewrite Z.min_l by lia. apply sliceTo_in_range. lia.
Qed.

(** C2: for a limit [n ≥ 0], [TopProducts(n)] and [TopRegions(n)] return the
    first [min(n, len)] elements of the stored slice, in the stored order,
    and do not panic, whatever the snapshot. *)
Theorem top_n_is_prefix (a : Analytics) (n : Z) :
  0 ≤ n →
  TopProducts a n =
    Returns (take (Z.to_nat (Z.min n (Z.of_nat (length (pd_TopProducts (precomputed a))))))
               (pd_TopProducts (precomputed a))) ∧
  TopRegions a n =
    Returns (take (Z.to_nat (Z.min n (Z.of_nat (length (pd_TopRegions (precomputed a))))))
               (pd_TopRegions (precomputed a))).
Proof. intros Hn. split; by apply truncate_prefix. Qed.

Lemma top_n_is_prefix_witness :
  0 ≤ 20 ∧ TopProducts NewAnalytics 20 = Returns [].
Proof.
  split; [lia|]. exact (proj1 (top_n_is_prefix NewAnalytics 20 ltac:(lia))).
Defined.

(** C10: for a limit [n < 0] the length test fails, the slice expression is
    reached with a negative bound and the call panics, also on an empty
    collection. *)
Theorem top_n_negative_panics (a : Analytics) (n : Z) :
  n < 0 → TopProducts a n = Panics ∧ TopRegions a n = Panics.
Proof.
  intros Hn. unfold TopProducts, TopRegions.
  rewrite !(proj2 (Z.leb_gt _ _)) by lia. by rewrite !sliceTo_negative.
Qed.

Lemma top_n_negative_panics_witness :
  -1 < 0 ∧ TopProducts NewAnalytics (-1) = Panics.
Proof.
  split; [lia|]. exact (proj1 (top_n_negative_panics NewAnalytics (-1) ltac:(lia))).
Defined.

(** ** Order of float64 values

    [PrimFloat.ltb] and [PrimFloat.leb] are read through their specification
    on [spec_float]; a NaN compares with nothing. *)

Ltac compare_cases :=
  repeat match goal with
  | |- context [Z.compare ?a ?b] => destruct (Z.compare_spec a b)
  | H : context [Z.compare ?a ?b] |- _ => destruct (Z.compare_spec a b)
  | |- context [Pos.compare_cont Eq ?a ?b] =>
      change (Pos.compare_cont Eq a b) with (Pos.compare a b)
  | H : context [Pos.compare_cont Eq ?a ?b] |- _ =>
      change (Pos.compare_cont Eq a b) with (Pos.compare a b) in H
  | |- context [Pos.compare ?a ?b] => destruct (Pos.compare_spec a b)
  | H : context [Pos.compare ?a ?b] |- _ => destruct (Pos.compare_spec a b)
  end.

Lemma SFcompare_lt_le_trans x y z :
  SFcompare x y = Some Lt →
  SFcompare y z = Some Lt ∨ SFcompare y z = Some Eq →
  SFcompare x z = Some Lt.
Proof.
  destruct x as [[]|[]| |[] mx ex], y as [[]|[]| |[] my ey],
           z as [[]|[]| |[] mz ez]; cbn; intros Hxy [Hyz|Hyz];
    try discriminate; try reflexivity;
    compare_cases; cbn in *; try discriminate; try reflexivity; try lia.
Qed.

Lemma SFcompare_irrefl x : SFcompare x x ≠ Some Lt.
Proof.
  destruct x as [[]|[]| |[] mx ex]; cbn; try discriminate;
    compare_cases; cbn; try discriminate; lia.
Qed.




Lemma f64_lt_spec x y :
  (x <? y)%float = true ↔ SFcompare (Prim2SF x) (Prim2SF y) = Some Lt.
Proof.
  rewrite FloatAxioms.ltb_spec. unfold SFltb.
  destruct (SFcompare _ _) as [[]|]; naive_solver.
Qed.


Lemma f64_lt_irrefl x : (x <? x)%float = false.
Proof.
  apply not_true_is_false. rewrite f64_lt_spec. apply SFcompare_irrefl.
Qed.

Lemma f64_lt_trans x y z :
  (x <? y)%float = true → (y <? z)%float = true → (x <? z)%float = true.
Proof. rewrite !f64_lt_spec. eauto using SFcompare_lt_le_trans. Qed.



(** ** Sorting *)

Section InsertionSort.
Context {A : Type} (cmp : A → A → Z).

(** Earlier element [a], later element [b]: [b] is not ordered before [a]. *)
Definition inOrder (a b : A) : Prop := ¬ before cmp b a.

Lemma insertLeft_perm x r : insertLeft cmp x r ≡ₚ x :: r.
Proof.
  induction r as [|y r IH]; cbn; [done|].
  destruct (cmp x y <? 0); [|done].
  rewrite IH. apply perm_swap.
Qed.

Lemma insertionSort_perm l : insertionSortCmpFunc cmp l ≡ₚ l.
Proof.
  unfold insertionSortCmpFunc. rewrite reverse_Permutation.
  assert (∀ acc, foldl (λ r x, insertLeft cmp x r) acc l ≡ₚ l ++ acc) as H.
  { induction l as [|x l IH]; intros acc; cbn; [done|].
    rewrite IH, insertLeft_perm. by rewrite Permutation_middle. }
  by rewrite H, app_nil_r.
Qed.

Variable P : A → Prop.
Hypothesis asym : ∀ a b, P a → P b → before cmp a b → ¬ before cmp b a.

Lemma insertLeft_HdRel x y r :
  P x → P y → before cmp x y → HdRel (flip inOrder) y r →
  HdRel (flip inOrder) y (insertLeft cmp x r).
Proof.
  intros Hx Hy Hxy Hr. destruct r as [|z r]; cbn.
  - constructor. unfold flip, inOrder. by apply asym.
  - destruct (cmp x z <? 0).
    + constructor. by inv Hr.
    + constructor. unfold flip, inOrder. by apply asym.
Qed.

Lemma insertLeft_Sorted x r :
  P x → Forall P r →
  Sorted (flip inOrder) r → Sorted (flip inOrder) (insertLeft cmp x r).
Proof.
  intros Hx. induction r as [|y r IH]; intros Hr Hs; cbn.
  - by repeat constructor.
  - inv Hr. inv Hs. destruct (Z.ltb_spec (cmp x y) 0) as [Hlt|Hge].
    + constructor; [by apply IH|]. by apply insertLeft_HdRel.
    + constructor; [by constructor|]. constructor.
      unfold flip, inOrder, before. lia.
Qed.

Lemma insertionSort_Sorted l :
  Forall P l → Sorted inOrder (insertionSortCmpFunc cmp l).
Proof.
  intros Hl. unfold insertionSortCmpFunc.
  assert (∀ acc, Forall P acc → Sorted (flip inOrder) acc →
            Sorted (flip inOrder) (foldl (λ r x, insertLeft cmp x r) acc l)
            ) as H.
  { induction Hl as [|x l Hx Hl IH]; intros acc Hacc Hs; cbn; [done|].
    apply IH; [|by apply insertLeft_Sorted].
    rewrite insertLeft_perm. by constructor. }
  apply (Sorted_reverse (flip inOrder)). apply H; constructor.
Qed.
End InsertionSort.

Lemma StrictWeak_asym {A} (cmp : A → A → Z) l a b :
  StrictWeak cmp l → a ∈ l → b ∈ l → before cmp a b → ¬ before cmp b a.
Proof.
  intros (Hirr & Htr & _) Ha Hb Hab Hba.
  apply (Hirr a Ha). by apply (Htr a b a).
Qed.

#[export] Program Instance insertionSort : SliceSort :=
  {| SortFunc := @insertionSortCmpFunc |}.
Next Obligation. intros A cmp l. apply insertionSort_perm. Qed.
Next Obligation.
  intros A cmp l Hsw.
  apply (insertionSort_Sorted cmp (λ a, a ∈ l)).
  - intros a b. by apply StrictWeak_asym.
  - by apply Forall_forall.
Qed.

(** Two orders a [range] loop can take: by increasing key and the reverse. *)
#[export] Program Instance rangeAscending : MapRange :=
  {| rangeOrder := λ A m, map_to_list m |}.
Next Obligation. done. Qed.

Program Definition rangeDescending : MapRange :=
  {| rangeOrder := λ A m, reverse (map_to_list m) |}.
Next Obligation. intros A m. apply reverse_Permutation. Qed.

(** The results arrive in the order of the lines. *)
#[export] Program Instance inLineOrder : ChanOrder :=
  {| arrival := λ A l, l |}.
Next Obligation. done. Qed.

Lemma Sorted_weaken {A} (R R' : relation A) (P : A → Prop) l :
  (∀ a b, P a → P b → R a b → R' a b) →
  Forall P l → Sorted R l → Sorted R' l.
Proof.
  intros HR Hl Hs. induction Hs as [|a l Hs IH Hd]; [constructor|].
  inv Hl. constructor; [by apply IH|].
  destruct Hd as [|b l' Hab]; constructor.
  match goal with H : Forall P (_ :: _) |- _ => inv H end. by apply HR.
Qed.

Lemma Sorted_StronglySorted_on {A} (R : relation A) (P : A → Prop) l :
  (∀ a b c, P a → P b → P c → R a b → R b c → R a c) →
  Forall P l → Sorted R l → StronglySorted R l.
Proof.
  intros Htr Hl Hs. induction Hs as [|a l Hs IH Hd]; [constructor|].
  inv Hl. match goal with H : Forall P l |- _ => rename H into Hl end.
  specialize (IH Hl). constructor; [done|].
  destruct Hd as [|b l' Hab]; [constructor|].
  inv IH. inv Hl. constructor; [done|].
  match goal with H : Forall (R b) l' |- _ => rename H into Hb end.
  match goal with H : Forall P l' |- _ => rename H into Hl' end.
  rewrite Forall_forall in Hb, Hl' |- *. intros c Hc.
  apply (Htr a b c); auto.
Qed.



Lemma before_cmpCountry a b :
  before cmpCountry a b ↔ (cr_TotalRevenue b <? cr_TotalRevenue a)%float = true.
Proof.
  unfold before, cmpCountry.
  destruct (cr_TotalRevenue b <? cr_TotalRevenue a)%float,
           (cr_TotalRevenue a <? cr_TotalRevenue b)%float; split; (done || lia).
Qed.

Lemma before_cmpProduct a b :
  before cmpProduct a b ↔ pf_Frequency b < pf_Frequency a.
Proof.
  unfold before, cmpProduct.
  destruct (Z.ltb_spec (pf_Frequency b) (pf_Frequency a)),
           (Z.ltb_spec (pf_Frequency a) (pf_Frequency b)); lia.
Qed.

Lemma before_cmpMonthly a b :
  before cmpMonthly a b ↔ (md_Volume b <? md_Volume a)%float = true.
Proof.
  unfold before, cmpMonthly.
  destruct (md_Volume b <? md_Volume a)%float,
           (md_Volume a <? md_Volume b)%float; split; (done || lia).
Qed.

Lemma before_cmpRegion a b :
  before cmpRegion a b ↔ (rr_Revenue b <? rr_Revenue a)%float = true.
Proof.
  unfold before, cmpRegion.
  destruct (rr_Revenue b <? rr_Revenue a)%float,
           (rr_Revenue a <? rr_Revenue b)%float; split; (done || lia).
Qed.



Section SortedRollups.
Context `{!SliceSort}.


End SortedRollups.


(** ** C6: the rollups are sorted in descending order *)






(** ** Ties and the order of equal elements *)

Section SortUnique.
Context `{!SliceSort} {A : Type} (cmp : A → A → Z).
Hypothesis irr : ∀ a, ¬ before cmp a a.
Hypothesis tr : ∀ a b c, before cmp a b → before cmp b c → before cmp a c.

Lemma strict_trichotomy l :
  StronglySorted (before cmp) l →
  ∀ x y, x ∈ l → y ∈ l → x = y ∨ before cmp x y ∨ before cmp y x.
Proof.
  induction 1 as [|a l Hs IH Ha]; intros x y Hx Hy; [by inv Hx|].
  rewrite Forall_forall in Ha.
  apply elem_of_cons in Hx as [->|Hx], Hy as [->|Hy]; auto.
Qed.

Lemma strict_StrictWeak s l :
  StronglySorted (before cmp) s → l ≡ₚ s → StrictWeak cmp l.
Proof.
  intros Hs Hp. pose proof (strict_trichotomy s Hs) as Htri.
  repeat split.
  - intros a _. apply irr.
  - intros a b c _ _ _. apply tr.
  - intros a b c Ha Hb _ Hac. rewrite Hp in Ha, Hb.
    destruct (Htri a b Ha Hb) as [->|[Hab|Hba]]; eauto.
Qed.

Lemma StronglySorted_weaken (R R' : relation A) l :
  (∀ a b, R a b → R' a b) → StronglySorted R l → StronglySorted R' l.
Proof.
  intros HR. induction 1 as [|a l Hs IH Ha]; constructor; [done|].
  eapply Forall_impl; [exact Ha|]. apply HR.
Qed.

(** A slice that comes out strictly ordered has one sorted arrangement:
    sorting any other enumeration of its elements gives the same slice. *)
Lemma SortFunc_unique l1 l2 :
  l1 ≡ₚ l2 →
  Sorted (before cmp) (SortFunc cmp l1) →
  SortFunc cmp l2 = SortFunc cmp l1.
Proof.
  intros Hp Hs1.
  assert (StronglySorted (before cmp) (SortFunc cmp l1)) as Hss1.
  { apply (Sorted_StronglySorted_on _ (λ _, True)); [eauto| |done].
    by apply Forall_forall. }
  pose proof (strict_trichotomy _ Hss1) as Htri.
  assert (l2 ≡ₚ SortFunc cmp l1) as Hp2 by (by rewrite SortFunc_perm).
  assert (SortFunc cmp l2 ≡ₚ SortFunc cmp l1) as Hp12
    by (by rewrite !SortFunc_perm).
  pose proof (SortFunc_sorted A cmp l2 (strict_StrictWeak _ _ Hss1 Hp2)) as Hs2.
  apply (StronglySorted_unique_strong (λ a b, ¬ before cmp b a)).
  - intros x1 x2 Hx1 Hx2 H12 H21. rewrite Hp12 in Hx1.
    destruct (Htri x1 x2 Hx1 Hx2) as [->|[?|?]]; done.
  - apply (Sorted_StronglySorted_on _ (λ a, a ∈ SortFunc cmp l1));
      [|by apply Forall_forall; intros ?; rewrite Hp12|done].
    intros a b c Ha Hb Hc Hab Hbc Hca.
    destruct (Htri a b Ha Hb) as [->|[?|?]]; [done| |done].
    destruct (Htri b c Hb Hc) as [->|[?|?]]; [done| |done].
    apply (irr a); eauto.
  - eapply StronglySorted_weaken; [|exact Hss1].
    intros a b Hab Hba. apply (irr a); eauto.
  - done.
Qed.
End SortUnique.

Definition strictlyDescendingFloat {A} (metric : A → float) (l : list A) : Prop :=
  Sorted (λ a b, (metric b <? metric a)%float = true) l.

Definition strictlyDescendingInt {A} (metric : A → Z) (l : list A) : Prop :=
  Sorted (λ a b, metric b < metric a) l.

Lemma Sorted_iff {A} (R R' : relation A) l :
  (∀ a b, R a b ↔ R' a b) → Sorted R l → Sorted R' l.
Proof.
  intros HR. apply (Sorted_weaken R R' (λ _, True)).
  - intros a b _ _. apply HR.
  - by apply Forall_forall.
Qed.

Section SortUniqueInstances.
Context `{!SliceSort}.

Lemma SortFunc_unique_float {A} (cmp : A → A → Z) (metric : A → float) l1 l2 :
  (∀ a b, before cmp a b ↔ (metric b <? metric a)%float = true) →
  l1 ≡ₚ l2 →
  strictlyDescendingFloat metric (SortFunc cmp l1) →
  SortFunc cmp l2 = SortFunc cmp l1.
Proof.
  intros Hcmp Hp Hs. apply SortFunc_unique; [| |done|].
  - intros a. rewrite Hcmp, f64_lt_irrefl. discriminate.
  - intros a b c. rewrite !Hcmp. eauto using f64_lt_trans.
  - eapply Sorted_iff; [|exact Hs]. intros a b. cbn. by rewrite Hcmp.
Qed.

Lemma SortFunc_unique_int {A} (cmp : A → A → Z) (metric : A → Z) l1 l2 :
  (∀ a b, before cmp a b ↔ metric b < metric a) →
  l1 ≡ₚ l2 →
  strictlyDescendingInt metric (SortFunc cmp l1) →
  SortFunc cmp l2 = SortFunc cmp l1.
Proof.
  intros Hcmp Hp Hs. apply SortFunc_unique; [| |done|].
  - intros a. rewrite Hcmp. lia.
  - intros a b c. rewrite !Hcmp. lia.
  - eapply Sorted_iff; [|exact Hs]. intros a b. cbn. by rewrite Hcmp.
Qed.
End SortUniqueInstances.

Lemma rangeOrder_any (R1 R2 : MapRange) {A} (m : gmap string A) :
  @rangeOrder R1 A m ≡ₚ @rangeOrder R2 A m.
Proof. by rewrite !rangeOrder_perm. Qed.

(** ** C8: calling SetData twice *)

Definition cable : Transaction := sale "USA" "Texas" "Cable" "Office" 0.2 1 10.

Definition feb01 : Time := {| instant := 1675209600; year := 2023; month := 2 |}.

(** The published snapshot after two calls of [SetData] on the same input,
    the first walking maps in the order [R1] and the second in [R2]. *)
Definition firstCall (S : SliceSort) (R1 : MapRange) (a : Analytics)
    (data : list Transaction) (t1 t1' : Time) : PrecomputedData :=
  precomputed (@SetData S R1 a data t1 t1').

Definition secondCall (S : SliceSort) (R1 R2 : MapRange) (a : Analytics)
    (data : list Transaction) (t1 t1' t2 t2' : Time) : PrecomputedData :=
  precomputed (@SetData S R2 (@SetData S R1 a data t1 t1') data t2 t2').

(** C8, as stated, fails: two products that tie on frequency 1 come out as
    Cable, Pen when the map is walked by increasing key and as Pen, Cable
    when it is walked the other way, and the runtime is free to do either on
    each call. *)
Lemma set_data_twice_counterexample :
  pd_TopProducts
    (secondCall insertionSort rangeAscending rangeDescending NewAnalytics
       [dime; cable] jan15 jan15 feb01 feb01)
  ≠ pd_TopProducts
      (firstCall insertionSort rangeAscending NewAnalytics [dime; cable]
         jan15 jan15).
Proof.
  intros H.
  apply (f_equal (λ l, pf_ProductName <$> head l)) in H.
  vm_compute in H. discriminate.
Qed.

(** C8 (amended): calling [SetData] twice with identical input gives the same
    record count and, in each of the four rollups, the same entries with the
    same values (one slice is a rearrangement of the other); a rollup whose
    entries are in strictly descending order of their metric after the first
    call, so that no two of them tie, has the same element order after the
    second call. *)
Theorem set_data_twice (S : SliceSort) (R1 R2 : MapRange) (a : Analytics)
    (data : list Transaction) (t1 t1' t2 t2' : Time) :
  let p1 := firstCall S R1 a data t1 t1' in
  let p2 := secondCall S R1 R2 a data t1 t1' t2 t2' in
  pd_RecordCount p2 = pd_RecordCount p1 ∧
  (pd_CountryRevenue p2 ≡ₚ pd_CountryRevenue p1 ∧
   pd_TopProducts p2 ≡ₚ pd_TopProducts p1 ∧
   pd_MonthlySales p2 ≡ₚ pd_MonthlySales p1 ∧
   pd_TopRegions p2 ≡ₚ pd_TopRegions p1) ∧
  (strictlyDescendingFloat cr_TotalRevenue (pd_CountryRevenue p1) →
   pd_CountryRevenue p2 = pd_CountryRevenue p1) ∧
  (strictlyDescendingInt pf_Frequency (pd_TopProducts p1) →
   pd_TopProducts p2 = pd_TopProducts p1) ∧
  (strictlyDescendingFloat md_Volume (pd_MonthlySales p1) →
   pd_MonthlySales p2 = pd_MonthlySales p1) ∧
  (strictlyDescendingFloat rr_Revenue (pd_TopRegions p1) →
   pd_TopRegions p2 = pd_TopRegions p1).
Proof.
  cbn zeta. unfold firstCall, secondCall, SetData, computeAnalytics, finalize.
  cbn [precomputed setPrecomputed pd_RecordCount pd_CountryRevenue
       pd_TopProducts pd_MonthlySales pd_TopRegions].
  unfold sortCountryRevenue, sortTopProducts, sortMonthlySales, sortTopRegions.
  split; [done|]. split; [|repeat split].
  - rewrite !SortFunc_perm. repeat split;
      by rewrite (rangeOrder_any R2 R1).
  - apply (SortFunc_unique_float _ cr_TotalRevenue); [apply before_cmpCountry|].
    by rewrite (rangeOrder_any R1 R2).
  - apply (SortFunc_unique_int _ pf_Frequency); [apply before_cmpProduct|].
    by rewrite (rangeOrder_any R1 R2).
  - apply (SortFunc_unique_float _ md_Volume); [apply before_cmpMonthly|].
    by rewrite (rangeOrder_any R1 R2).
  - apply (SortFunc_unique_float _ rr_Revenue); [apply before_cmpRegion|].
    by rewrite (rangeOrder_any R1 R2).
Qed.

Lemma set_data_twice_witness :
  strictlyDescendingFloat rr_Revenue
    (pd_TopRegions (firstCall insertionSort rangeAscending NewAnalytics
                      [dime; cable] jan15 jan15)) ∧
  pd_TopRegions (secondCall insertionSort rangeAscending rangeDescending
                   NewAnalytics [dime; cable] jan15 jan15 feb01 feb01)
  = pd_TopRegions (firstCall insertionSort rangeAscending NewAnalytics
                     [dime; cable] jan15 jan15).
Proof.
  assert (strictlyDescendingFloat rr_Revenue
    (pd_TopRegions (firstCall insertionSort rangeAscending NewAnalytics
                      [dime; cable] jan15 jan15))) as Hs.
  { vm_compute. repeat constructor. }
  split; [exact Hs|].
  exact (proj2 (proj2 (proj2 (proj2 (proj2
    (set_data_twice insertionSort rangeAscending rangeDescending NewAnalytics
       [dime; cable] jan15 jan15 feb01 feb01))))) Hs).
Defined.

(** ** A library instance for examples

    An executable stand-in for the library parsers on plain inputs: blanks
    are trimmed, a date is [YYYY-MM-DD] with a valid month and day, an
    integer is an optional sign and decimal digits within the range of
    [int], a float is an optional sign, digits and an optional fraction of at
    most fifteen digits in all, for which the quotient of two exact floats
    is the correctly rounded value. *)

Definition isBlank (c : ascii) : bool :=
  Ascii.eqb c " "%char || Ascii.eqb c "009"%char || Ascii.eqb c "010"%char
  || Ascii.eqb c "013"%char.

Fixpoint trimLeft (s : string) : string :=
  match s with
  | String c rest => if isBlank c then trimLeft rest else s
  | EmptyString => EmptyString
  end.

Fixpoint trimRight (s : string) : string :=
  match s with
  | EmptyString => EmptyString
  | String c rest =>
      match trimRight rest with
      | EmptyString => if isBlank c then EmptyString else String c EmptyString
      | rest' => String c rest'
      end
  end.

Definition digitOf (c : ascii) : option Z :=
  let n := Z.of_N (N_of_ascii c) in
  if (48 <=? n) && (n <=? 57) then Some (n - 48) else None.

(** The value of a non-empty string of decimal digits. *)
Fixpoint digitsFrom (acc : Z) (s : string) : option Z :=
  match s with
  | EmptyString => Some acc
  | String c rest =>
      match digitOf c with
      | Some d => digitsFrom (10 * acc + d) rest
      | None => None
      end
  end.

Definition parseDigits (s : string) : option Z :=
  match s with
  | EmptyString => None
  | _ => digitsFrom 0 s
  end.

Definition sampleAtoi (s : string) : option Z :=
  let signed (neg : bool) (body : string) :=
    match parseDigits body with
    | Some n =>
        let v := if neg then - n else n in
        if (- 2 ^ 63 <=? v) && (v <? 2 ^ 63) then Some v else None
    | None => None
    end in
  match s with
  | String "-" body => signed true body
  | String "+" body => signed false body
  | _ => signed false s
  end.

Definition isLeap (y : Z) : bool :=
  (y mod 4 =? 0) && (negb (y mod 100 =? 0) || (y mod 400 =? 0)).

Definition daysIn (y m : Z) : Z :=
  if m =? 2 then (if isLeap y then 29 else 28)
  else if (m =? 4) || (m =? 6) || (m =? 9) || (m =? 11) then 30
  else 31.

(** Days from 1970-01-01 to the civil date. *)
Definition daysFromCivil (y m d : Z) : Z :=
  let y' := if m <=? 2 then y - 1 else y in
  let era := y' / 400 in
  let yoe := y' - era * 400 in
  let doy := (153 * (if 2 <? m then m - 3 else m + 9) + 2) / 5 + d - 1 in
  let doe := yoe * 365 + yoe / 4 - yoe / 100 + doy in
  era * 146097 + doe - 719468.

Definition sampleParseDate (s : string) : option Time :=
  if negb (Nat.eqb (String.length s) 10) then None else
  if negb (String.eqb (substring 4 1 s) "-" && String.eqb (substring 7 1 s) "-")
  then None else
  match parseDigits (substring 0 4 s), parseDigits (substring 5 2 s),
        parseDigits (substring 8 2 s) with
  | Some y, Some m, Some d =>
      if (1 <=? m) && (m <=? 12) && (1 <=? d) && (d <=? daysIn y m)
      then Some {| instant := daysFromCivil y m d * 86400; year := y; month := m |}
      else None
  | _, _, _ => None
  end.

Definition floatOfZ (n : Z) : float := PrimFloat.of_uint63 (Uint63.of_Z n).

Fixpoint splitAtDot (s : string) : string * option string :=
  match s with
  | EmptyString => (EmptyString, None)
  | String c rest =>
      if Ascii.eqb c "."%char then (EmptyString, Some rest)
      else let '(whole, frac) := splitAtDot rest in (String c whole, frac)
  end.

Definition sampleParseFloat (s : string) : option float :=
  let unsigned (body : string) : option float :=
    let '(whole, frac) := splitAtDot body in
    let fracDigits := default EmptyString frac in
    if Nat.ltb 15 (String.length whole + String.length fracDigits) then None else
    match parseDigits (whole +:+ fracDigits), whole with
    | Some n, String _ _ =>
        Some (floatOfZ n / floatOfZ (10 ^ Z.of_nat (String.length fracDigits)))%float
    | _, _ => None
    end in
  match s with
  | String "-" body => PrimFloat.opp <$> unsigned body
  | String "+" body => unsigned body
  | _ => unsigned s
  end.

#[export] Instance sampleStdLib : StdLib :=
  {| TrimSpace := λ s, trimRight (trimLeft s);
     ParseDate := sampleParseDate;
     ParseFloat := sampleParseFloat;
     Atoi := sampleAtoi |}.

Definition laptopRow : string :=
  "T001,2023-01-15,U001,USA,California,P001,Laptop,Electronics,999.99,1,999.99,50,2023-01-01".

Definition badPriceRow : string :=
  "T002,2023-01-16,U002,USA,Texas,P002,Mouse,Electronics,invalid,2,59.98,100,2023-01-01".

Definition headerRow : string :=
  "transaction_id,transaction_date,user_id,country,region,product_id,product_name,category,price,quantity,total_price,stock,added_date".

Example split_fields :
  Split "" = [""] ∧ Split "a,b" = ["a"; "b"] ∧ Split "a,,b," = ["a"; ""; "b"; ""].
Proof. repeat split. Qed.

Example format_month :
  FormatMonth jan15 = "2023-01" ∧ FormatMonth zeroTime = "0001-01".
Proof. split; vm_compute; reflexivity. Qed.

Example cache_filename :
  getCacheFilename "data/sales.csv" = ".cache/data_sales.csv_v1.gob".
Proof. reflexivity. Qed.

Example parse_laptop :
  parseLine laptopRow =
    Some {| tx_Date := jan15; tx_Country := "USA"; tx_Region := "California";
            tx_ProductName := "Laptop"; tx_Category := "Electronics";
            tx_Price := 999.99; tx_Quantity := 1; tx_TotalPrice := 999.99;
            tx_Stock := 50 |}.
Proof. vm_compute. reflexivity. Qed.

Example parse_bad_price : parseLine badPriceRow = None.
Proof. vm_compute. reflexivity. Qed.

Example parse_header : parseLine headerRow = None.
Proof. vm_compute. reflexivity. Qed.

(** ** C5: when a row parses *)


(** ** C9: the composite key of a country entry *)

Definition leftSale : Transaction := sale "A|B" "West" "C" "D" 1 1 5.
Definition rightSale : Transaction := sale "A" "West" "B|C" "D" 2 1 5.

(** C9: two transactions with distinct (country, product, category) triples
    whose fields hold the separator are given one key and are accumulated
    into one entry, under the triple of the first. *)
Theorem country_key_collision :
  (tx_Country leftSale, tx_ProductName leftSale, tx_Category leftSale)
    ≠ (tx_Country rightSale, tx_ProductName rightSale, tx_Category rightSale) ∧
  countryKey leftSale = countryKey rightSale ∧
  pd_CountryRevenue (computeAnalytics [leftSale; rightSale] jan15) =
    [ {| cr_Country := "A|B"; cr_ProductName := "C"; cr_Category := "D";
         cr_TotalRevenue := 3; cr_Transactions := 2 |} ].
Proof. split; [discriminate|]. split; vm_compute; reflexivity. Qed.

(** The half of C9 that holds: a triple is in at most one entry. An entry's
    key is rebuilt from its own triple, and the keys of a map are distinct. *)
Definition tripleKey (t : string * string * string) : string :=
  t.1.1 +:+ "|" +:+ t.1.2 +:+ "|" +:+ t.2.

Lemma country_entry_key l k e :
  countryGroups (onePass l) !! k = Some e → tripleKey (crIdent e) = k.
Proof.
  intros He.
  pose proof (ident_aggr countryKey newCountry addCountry crIdent
                ltac:(done) k l) as Hi.
  unfold onePass in He. rewrite countryGroups_aggregateAll in He.
  cbn [countryGroups emptyGroups] in He. rewrite He in Hi. cbn in Hi.
  destruct (touching countryKey k l) as [|t f] eqn:Hf; [done|].
  assert (t ∈ touching countryKey k l) as Hin by (rewrite Hf; left).
  apply list_elem_of_filter in Hin as [Hk _].
  cbn [head fmap option_fmap option_map] in Hi.
  assert (crIdent e = crIdent (newCountry t)) as -> by congruence.
  by rewrite <- Hk.
Qed.

Lemma country_triples_unique `{!SliceSort} `{!MapRange} data now :
  NoDup (crIdent <$> pd_CountryRevenue (computeAnalytics data now)).
Proof.
  unfold computeAnalytics, finalize, sortCountryRevenue.
  cbn [pd_CountryRevenue]. rewrite SortFunc_perm, rangeOrder_perm.
  fold (onePass data).
  apply (NoDup_fmap_1 tripleKey).
  rewrite <- !list_fmap_compose.
  erewrite (list_fmap_ext _ fst).
  - apply NoDup_fst_map_to_list.
  - intros i [k e] Hl. cbn. apply country_entry_key with data.
    apply elem_of_map_to_list. eapply list_elem_of_lookup_2, Hl.
Qed.

(** ** C3: a file without valid rows *)

Section NoValidRows.
Context `{!StdLib} `{!SliceSort} `{!MapRange} `{!ChanOrder}.





End NoValidRows.

Definition staleSnapshot : PrecomputedData :=
  {| pd_CountryRevenue := pd_CountryRevenue (computeAnalytics [dime] jan15);
     pd_TopProducts := pd_TopProducts (computeAnalytics [dime] jan15);
     pd_MonthlySales := pd_MonthlySales (computeAnalytics [dime] jan15);
     pd_TopRegions := pd_TopRegions (computeAnalytics [dime] jan15);
     pd_LastModified := feb01;
     pd_RecordCount := 1 |}.

(** A header-only [sales.csv] last modified on 15 January next to a cache
    file written for that path on 1 February. *)
Definition headerOnlyWithCache : FileSystem :=
  {| fs_cache := {[ getCacheFilename "sales.csv" := Gob staleSnapshot ]};
     fs_source := {[ "sales.csv" :=
                       {| sf_modTime := jan15; sf_lines := [headerRow];
                          sf_scanErr := false |} ]};
     fs_writable := true |}.



Definition headerOnly : FileSystem :=
  {| fs_cache := ∅;
     fs_source := {[ "sales.csv" :=
                       {| sf_modTime := jan15; sf_lines := [headerRow];
                          sf_scanErr := false |} ]};
     fs_writable := true |}.


(** ** C7: when the cache is used *)

(** The load took the cache path: the cached snapshot is published, nothing
    is recomputed and the log has the one line of that path. *)
Definition installedFromCache (r : LoadResult) (cached : PrecomputedData) : Prop :=
  precomputed (lr_analytics r) = cached ∧
  lr_log r = [LoadedFromCache (pd_RecordCount cached)] ∧
  lr_err r = None.

Lemma recompute_log `{!StdLib} `{!SliceSort} `{!MapRange} `{!ChanOrder}
    a ctx fs filename now :
  head (lr_log (recompute a ctx fs filename now)) = Some (ProcessingCSVFile filename).
Proof.
  unfold recompute. destruct (streamProcessCSV _ _ _ _) as [a' [e|]]; [done|].
  by destruct (saveToCache _ _ _).
Qed.

(** C7: [LoadFromCSV] installs a cached snapshot only if the cache file of the
    path exists and decodes and the source file exists and was not modified
    after the snapshot's [last_modified] (the code asks for strictly
    before); when the cache file cannot be read or decoded the load is the
    full recomputation from the source file, whose only errors are those of
    processing the file. *)
Theorem cache_use `{!StdLib} `{!SliceSort} `{!MapRange} `{!ChanOrder}
    (a : Analytics) (ctx : Context) (fs : FileSystem) (filename : string)
    (now : Time) :
  (∀ cached, installedFromCache (LoadFromCSV a ctx fs filename now) cached →
     fs_cache fs !! getCacheFilename filename = Some (Gob cached) ∧
     ∃ f, fs_source fs !! filename = Some f ∧
          instant (sf_modTime f) < instant (pd_LastModified cached) ∧
          ¬ instant (pd_LastModified cached) < instant (sf_modTime f)) ∧
  (∀ e, loadFromCache fs filename = inl e →
     LoadFromCSV a ctx fs filename now =
       recompute (setCsvPath a filename) ctx fs filename now ∧
     lr_err (LoadFromCSV a ctx fs filename now) =
       ErrProcessCSV <$>
         (streamProcessCSV (setCsvPath a filename) ctx
            (fs_source fs !! filename) now).2 ∧
     lr_analytics (LoadFromCSV a ctx fs filename now) =
       (streamProcessCSV (setCsvPath a filename) ctx
          (fs_source fs !! filename) now).1).
Proof.
  split.
  - intros cached (Hp & Hlog & Herr). unfold LoadFromCSV in *.
    unfold loadFromCache in *.
    destruct (fs_cache fs !! getCacheFilename filename) as [[data|]|] eqn:Hc;
      try (pose proof (recompute_log (setCsvPath a filename) ctx fs filename now)
             as Hh; rewrite Hlog in Hh; discriminate).
    unfold cacheFresh in *.
    destruct (fs_source fs !! filename) as [f|] eqn:Hf;
      try (pose proof (recompute_log (setCsvPath a filename) ctx fs filename now)
             as Hh; rewrite Hlog in Hh; discriminate).
    destruct (Before (sf_modTime f) (pd_LastModified data)) eqn:Hb;
      try (pose proof (recompute_log (setCsvPath a filename) ctx fs filename now)
             as Hh; rewrite Hlog in Hh; discriminate).
    cbn in Hp. subst data. split; [done|]. exists f. split; [done|].
    unfold Before in Hb. apply Z.ltb_lt in Hb. lia.
  - intros e He. unfold LoadFromCSV. rewrite He. split; [done|].
    unfold recompute.
    destruct (streamProcessCSV _ _ _ _) as [a' [err|]]; [done|].
    by destruct (saveToCache _ _ _).
Qed.

Example cache_hit_installs :
  installedFromCache
    (LoadFromCSV NewAnalytics Background headerOnlyWithCache "sales.csv" feb01)
    staleSnapshot.
Proof. repeat split; vm_compute; reflexivity. Qed.

(** ** The number of entries of a rollup *)

Lemma touching_nil (key : Transaction → string) k l :
  touching key k l = [] ↔ k ∉ key <$> l.
Proof.
  induction l as [|tx l IH].
  - split; [|done]. intros _ H. by inv H.
  - rewrite fmap_cons, not_elem_of_cons.
    destruct (decide (key tx = k)) as [Heq|Hne].
    + rewrite touching_cons_eq by done. split; [done|]. by intros [? _].
    + rewrite touching_cons_ne by done. rewrite IH.
      split; [intros H; split; [congruence|done]|by intros [_ ?]].
Qed.

Lemma dom_aggr {A} key (fresh : Transaction → A) step l :
  dom (aggr key fresh step ∅ l) = list_to_set (key <$> l).
Proof.
  apply set_eq. intros k.
  rewrite elem_of_dom, elem_of_list_to_set, <- not_eq_None_Some.
  rewrite aggr_lookup, lookup_empty, evolve_None, touching_nil.
  split; [|by auto]. intros H. by destruct (decide (k ∈ key <$> l)).
Qed.

(** The product slice has one entry per distinct product name. *)
Lemma top_products_count `{!SliceSort} `{!MapRange} data now :
  length (pd_TopProducts (computeAnalytics data now)) =
    size (list_to_set (tx_ProductName <$> data) : gset string).
Proof.
  unfold computeAnalytics, finalize, sortTopProducts. cbn [pd_TopProducts].
  rewrite SortFunc_perm, length_fmap, rangeOrder_perm, length_map_to_list.
  rewrite <- size_dom. f_equal.
  rewrite productGroups_aggregateAll. apply dom_aggr.
Qed.

(** ** Scenarios *)

Definition laptop : Transaction :=
  sale "USA" "California" "Laptop" "Electronics" 999.99 1 50.
Definition mouse : Transaction :=
  sale "Canada" "Ontario" "Mouse" "Electronics" 29.99 1 100.

Example scenario_country_revenue :
  pd_CountryRevenue (computeAnalytics [laptop; laptop; mouse] jan15) =
    [ {| cr_Country := "USA"; cr_ProductName := "Laptop";
         cr_Category := "Electronics"; cr_TotalRevenue := 1999.98;
         cr_Transactions := 2 |};
      {| cr_Country := "Canada"; cr_ProductName := "Mouse";
         cr_Category := "Electronics"; cr_TotalRevenue := 29.99;
         cr_Transactions := 1 |} ].
Proof. vm_compute. reflexivity. Qed.

Example scenario_top_products_20 :
  TopProducts (SetData NewAnalytics [laptop; mouse; dime] jan15 jan15) 20 =
    Returns (pd_TopProducts (computeAnalytics [laptop; mouse; dime] jan15)) ∧
  length (pd_TopProducts (computeAnalytics [laptop; mouse; dime] jan15)) = 3%nat.
Proof. split; vm_compute; reflexivity. Qed.

Definition mixedFile : FileSystem :=
  {| fs_cache := ∅;
     fs_source := {[ "sales.csv" :=
                       {| sf_modTime := jan15;
                          sf_lines := [headerRow; badPriceRow; laptopRow];
                          sf_scanErr := false |} ]};
     fs_writable := true |}.

Example scenario_malformed_row_dropped :
  let r := LoadFromCSV NewAnalytics Background mixedFile "sales.csv" feb01 in
  lr_err r = None ∧ pd_RecordCount (precomputed (lr_analytics r)) = 1 ∧
  lr_log r = [ProcessingCSVFile "sales.csv"; ProcessingComplete 1] ∧
  loadFromCache (lr_fs r) "sales.csv" = inr (precomputed (lr_analytics r)).
Proof. repeat split; vm_compute; reflexivity. Qed.

Example set_data_orders :
  pf_ProductName <$>
    pd_TopProducts (firstCall insertionSort rangeAscending NewAnalytics
                      [dime; cable] jan15 jan15) = ["Cable"; "Pen"] ∧
  pf_ProductName <$>
    pd_TopProducts (secondCall insertionSort rangeAscending rangeDescending
                      NewAnalytics [dime; cable] jan15 jan15 feb01 feb01)
    = ["Pen"; "Cable"].
Proof. split; vm_compute; reflexivity. Qed.

(** After [SetData] the product accessor returns as many entries as the
    limit allows of the distinct product names of the input. *)
Lemma top_products_after_SetData `{!SliceSort} `{!MapRange} a data now now' n :
  0 ≤ n →
  ∃ top, TopProducts (SetData a data now now') n = Returns top ∧
         Z.of_nat (length top) =
           Z.min n (Z.of_nat (size (list_to_set (tx_ProductName <$> data)
                                      : gset string))).
Proof.
  intros Hn. eexists. split.
  - unfold TopProducts. apply truncate_prefix. exact Hn.
  - unfold SetData. cbn [precomputed setPrecomputed pd_TopProducts].
    rewrite length_take, top_products_count. lia.
Qed.

(** A decodable cache file newer than the source file is installed. *)
Lemma cache_fresh_installs `{!StdLib} `{!SliceSort} `{!MapRange} `{!ChanOrder}
    a ctx fs filename now cached :
  loadFromCache fs filename = inr cached →
  cacheFresh fs filename cached = true →
  installedFromCache (LoadFromCSV a ctx fs filename now) cached.
Proof. intros Hc Hf. unfold LoadFromCSV. rewrite Hc, Hf. by repeat split. Qed.

(** * Further properties of the engine *)

(** ** Merging a batch into maps that already hold earlier batches *)

Section KeyedStream.
Context {A : Type}.
Variables (key : Transaction → string) (fresh : Transaction → A)
          (step : Transaction → A → A) (clone : A → A) (acc : A → A → A).

Local Abbreviation aggrK := (aggr key fresh step).
Local Abbreviation mergeK := (mergeInto clone acc).
Local Abbreviation touchK := (touching key).

Variables (count : A → Z) (weight : Transaction → Z).
Hypothesis count_fresh : ∀ tx, count (fresh tx) = 0.
Hypothesis count_step : ∀ tx e, count (step tx e) = int_add (count e) (weight tx).
Hypothesis count_clone : ∀ v, count (clone v) = 0.
Hypothesis count_acc : ∀ v e, count (acc v e) = int_add (count e) (count v).

(** Global maps whose counters are those of a pass over [done] have, after
    the merge of a batch [v], the counters of a pass over [done ++ v]. *)
Lemma count_merge_step (g : gmap string A) done v :
  count <$> g = count <$> aggrK ∅ done →
  count <$> mergeK (aggrK ∅ v) g = count <$> aggrK ∅ (done ++ v).
Proof.
  intros Hg. apply map_eq. intros k. rewrite !lookup_fmap, mergeInto_lookup.
  assert (count <$> g !! k = countOf key weight k done) as Hgk.
  { rewrite <- (count_aggr key fresh step count weight count_fresh count_step).
    by rewrite <- !lookup_fmap, Hg. }
  pose proof (count_aggr key fresh step count weight count_fresh count_step k v)
    as Hv.
  rewrite (count_aggr key fresh step count weight count_fresh count_step).
  unfold countOf in *. rewrite touching_app.
  destruct (g !! k) as [e|], (aggrK ∅ v !! k) as [lv|];
    destruct (touchK k done) as [|t1 f1], (touchK k v) as [|t2 f2];
    cbn in Hgk, Hv |- *; try discriminate; simplify_eq; try done.
  - rewrite count_acc, Hgk, Hv, int_add_wrap. do 2 f_equal.
    pose proof (weights_app weight f1 (t2 :: f2)) as Hw.
    unfold weights in *. cbn [foldr] in *. lia.
  - rewrite app_nil_r. by rewrite Hgk.
  - by rewrite count_acc, count_clone, Hv, int_add_0_wrap.
Qed.

Lemma count_aggr_perm l l' :
  l ≡ₚ l' → count <$> aggrK ∅ l = count <$> aggrK ∅ l'.
Proof.
  intros Hp. apply map_eq. intros k. rewrite !lookup_fmap.
  rewrite !(count_aggr key fresh step count weight count_fresh count_step).
  by apply countOf_perm.
Qed.

(** *** The field of an entry that repeats its key *)

Variable keyOf : A → string.
Hypothesis keyOf_fresh : ∀ tx, keyOf (fresh tx) = key tx.
Hypothesis keyOf_step : ∀ tx e, keyOf (step tx e) = keyOf e.
Hypothesis keyOf_clone : ∀ v, keyOf (clone v) = keyOf v.
Hypothesis keyOf_acc : ∀ v e, keyOf (acc v e) = keyOf e.

Definition keyedBy (m : gmap string A) : Prop :=
  map_Forall (λ k e, keyOf e = k) m.

Lemma keyedBy_aggr l : keyedBy (aggrK ∅ l).
Proof.
  intros k e He.
  pose proof (ident_aggr key fresh step keyOf keyOf_step k l) as Hi.
  rewrite He in Hi. cbn in Hi.
  destruct (touchK k l) as [|t f] eqn:Hf; [done|].
  assert (t ∈ touchK k l) as Hin by (rewrite Hf; left).
  apply list_elem_of_filter in Hin as [Hk _].
  cbn in Hi. injection Hi as ->. by rewrite keyOf_fresh.
Qed.

Lemma keyedBy_merge local g : keyedBy local → keyedBy g → keyedBy (mergeK local g).
Proof.
  intros Hl Hg k e. rewrite mergeInto_lookup.
  destruct (local !! k) as [v|] eqn:Hv; [|apply Hg].
  intros [= <-]. rewrite keyOf_acc.
  destruct (g !! k) as [e|] eqn:He; cbn.
  - by apply Hg.
  - rewrite keyOf_clone. by apply Hl.
Qed.
End KeyedStream.

(** ** What streaming ingestion computes *)

(** The integer counters and the key sets of [g] are those of one pass over
    the transactions [l]. *)
Definition sameCounters (g : Groups) (l : list Transaction) : Prop :=
  cr_Transactions <$> countryGroups g =
    cr_Transactions <$> countryGroups (onePass l) ∧
  pf_Frequency <$> productGroups g = pf_Frequency <$> productGroups (onePass l) ∧
  (λ _ : float, 0) <$> monthlyGroups g =
    (λ _ : float, 0) <$> monthlyGroups (onePass l) ∧
  rr_ItemsSold <$> regionGroups g = rr_ItemsSold <$> regionGroups (onePass l).

(** Every entry of [g] is stored under the key its own fields give. *)
Definition keyedGroups (g : Groups) : Prop :=
  map_Forall (λ k e, tripleKey (crIdent e) = k) (countryGroups g) ∧
  map_Forall (λ k e, pf_ProductName e = k) (productGroups g) ∧
  map_Forall (λ k e, rr_Region e = k) (regionGroups g).

Lemma sameCounters_empty : sameCounters emptyGroups [].
Proof. by repeat split. Qed.

Lemma keyedGroups_empty : keyedGroups emptyGroups.
Proof. repeat split; apply map_Forall_empty. Qed.

Lemma sameCounters_perm g l l' : l ≡ₚ l' → sameCounters g l → sameCounters g l'.
Proof.
  intros Hp (Hc & Hpf & Hm & Hr). unfold sameCounters.
  rewrite Hc, Hpf, Hm, Hr. unfold_groups. repeat split.
  - by apply (count_aggr_perm countryKey newCountry addCountry
                cr_Transactions (λ _, 1)).
  - by apply (count_aggr_perm tx_ProductName newProduct (λ _, addProduct)
                pf_Frequency (λ _, 1)).
  - by apply (count_aggr_perm monthKey (λ _, 0%float) addMonthly
                (λ _, 0) (λ _, 0)).
  - by apply (count_aggr_perm tx_Region newRegion addRegion
                rr_ItemsSold tx_Quantity).
Qed.

Lemma sameCounters_merge g done v :
  sameCounters g done →
  sameCounters (mergeBatch (aggregateAll emptyGroups v) g) (done ++ v).
Proof.
  intros (Hc & Hpf & Hm & Hr). unfold sameCounters in *.
  revert Hc Hpf Hm Hr. unfold_groups. intros Hc Hpf Hm Hr. repeat split.
  - by apply (count_merge_step countryKey newCountry addCountry cloneCountry
                accCountry cr_Transactions (λ _, 1)).
  - by apply (count_merge_step tx_ProductName newProduct (λ _, addProduct)
                cloneProduct accProduct pf_Frequency (λ _, 1)).
  - by apply (count_merge_step monthKey (λ _, 0%float) addMonthly
                (λ _, 0%float) (λ v e, (e + v)%float) (λ _, 0) (λ _, 0)).
  - by apply (count_merge_step tx_Region newRegion addRegion cloneRegion
                accRegion rr_ItemsSold tx_Quantity).
Qed.

Lemma keyedGroups_merge g v :
  keyedGroups g → keyedGroups (mergeBatch (aggregateAll emptyGroups v) g).
Proof.
  intros (Hc & Hp & Hr). unfold keyedGroups. unfold_groups. repeat split.
  - apply (keyedBy_merge cloneCountry accCountry (λ e, tripleKey (crIdent e)));
      [done..| |done].
    by apply (keyedBy_aggr countryKey newCountry addCountry).
  - apply (keyedBy_merge cloneProduct accProduct pf_ProductName); [done..| |done].
    by apply (keyedBy_aggr tx_ProductName newProduct (λ _, addProduct)).
  - apply (keyedBy_merge cloneRegion accRegion rr_Region); [done..| |done].
    by apply (keyedBy_aggr tx_Region newRegion addRegion).
Qed.

Section Ingest.
Context `{!StdLib} `{!ChanOrder}.

(** The scanning loop followed by the batch of the remaining lines: the
    global maps and the record count [streamProcessCSV] finalizes. *)
Definition ingest (ctx : Context) (rows : list string) : Error + (Groups * Z) :=
  match scanLoop ctx rows 0 [] emptyGroups 0 with
  | inl e => inl e
  | inr (batch, global, recordCount) =>
      if 0 <? Z.of_nat (length batch)
      then processBatch ctx (length rows - length batch) batch global recordCount
      else inr (global, recordCount)
  end.

(** The rows of [rows] that parse, in file order. *)
Definition validRows (rows : list string) : list Transaction :=
  omap parseLine rows.

(** The state between batches: the maps and the count stand for the
    transactions [done]. *)
Definition ingested (g : Groups) (n : Z) (done : list Transaction) : Prop :=
  n = int_wrap (Z.of_nat (length done)) ∧ sameCounters g done ∧ keyedGroups g.

Lemma arrival_valid batch :
  omap id (arrival (parseLine <$> batch)) ≡ₚ validRows batch.
Proof.
  unfold validRows. rewrite arrival_perm.
  induction batch as [|line batch IH]; [done|]. cbn.
  destruct (parseLine line); cbn; by rewrite IH.
Qed.

Lemma processBatch_ingested ctx first batch g n g' n' done :
  processBatch ctx first batch g n = inr (g', n') →
  ingested g n done →
  ingested g' n' (done ++ validRows batch).
Proof.
  unfold processBatch. destruct (existsb _ _); [done|].
  intros [= <- <-] (-> & Hs & Hk).
  pose proof (arrival_valid batch) as Hp.
  set (v := omap id (arrival (parseLine <$> batch))) in *.
  split; [|split].
  - rewrite int_add_wrap_l. f_equal. rewrite length_app, <- Hp. lia.
  - apply (sameCounters_perm _ (done ++ v)); [by rewrite Hp|].
    by apply sameCounters_merge.
  - by apply keyedGroups_merge.
Qed.

Lemma validRows_app l1 l2 : validRows (l1 ++ l2) = validRows l1 ++ validRows l2.
Proof. apply omap_app. Qed.

Lemma scanLoop_ingested ctx rows i batch g n batch' g' n' done :
  scanLoop ctx rows i batch g n = inr (batch', g', n') →
  ingested g n done →
  ∃ done', ingested g' n' done' ∧
           done' ++ validRows batch' = done ++ validRows (batch ++ rows).
Proof.
  revert i batch g n done.
  induction rows as [|line rows IH]; intros i batch g n done Hrun Hin.
  { injection Hrun as <- <- <-. exists done. by rewrite app_nil_r. }
  cbn [scanLoop] in Hrun. destruct (doneAtScan ctx i); [done|].
  destruct (batchSize <=? _).
  - destruct (processBatch _ _ _ _ _) as [?|[g1 n1]] eqn:Hb; [done|].
    destruct (IH _ _ _ _ _ Hrun (processBatch_ingested _ _ _ _ _ _ _ _ Hb Hin))
      as (done' & Hin' & Heq).
    exists done'. split; [done|]. rewrite Heq. cbn [app].
    by rewrite <- app_assoc, <- validRows_app, <- app_assoc.
  - destruct (IH _ _ _ _ _ Hrun Hin) as (done' & Hin' & Heq).
    exists done'. split; [done|]. by rewrite Heq, <- app_assoc.
Qed.

(** Ingestion that is not cancelled leaves the count and the counters of one
    pass over the rows that parse, whatever the batch boundaries and the
    order in which the parse tasks deliver. *)
Lemma ingest_ingested ctx rows g n :
  ingest ctx rows = inr (g, n) → ingested g n (validRows rows).
Proof.
  unfold ingest.
  destruct (scanLoop _ _ _ _ _ _) as [?|[[batch g1] n1]] eqn:Hs; [done|].
  destruct (scanLoop_ingested _ _ _ _ _ _ _ _ _ [] Hs) as (done & Hin & Heq).
  { split; [done|]. split; [apply sameCounters_empty|apply keyedGroups_empty]. }
  cbn [app] in Heq. rewrite <- Heq.
  destruct (0 <? _) eqn:Hlen.
  - intros Hb. by apply (processBatch_ingested _ _ _ _ _ _ _ _ Hb).
  - intros [= <- <-]. apply Z.ltb_ge in Hlen.
    destruct batch; [|cbn in Hlen; lia]. by rewrite app_nil_r.
Qed.
End Ingest.

Lemma streamProcessCSV_ingest `{!StdLib} `{!SliceSort} `{!MapRange} `{!ChanOrder}
    a ctx f now :
  streamProcessCSV a ctx (Some f) now =
    match sf_lines f with
    | [] => (a, Some ErrEmptyFile)
    | _ :: rows =>
        match ingest ctx rows with
        | inl e => (a, Some e)
        | inr (g, n) =>
            if sf_scanErr f then (a, Some ErrScan)
            else if n =? 0 then (a, Some ErrNoValidRecords)
            else ({| precomputed := finalize g now n; csvPath := csvPath a;
                     recordsProcessed := n |}, None)
        end
    end.
Proof.
  unfold streamProcessCSV, ingest. destruct (sf_lines f) as [|h rows]; [done|].
  destruct (scanLoop _ _ _ _ _ _) as [?|[[batch g] n]]; [done|].
  destruct (0 <? _); [|done].
  by destruct (processBatch _ _ _ _ _) as [?|[g' n']].
Qed.

Lemma elem_of_sorted `{!SliceSort} `{!MapRange} {A B} (cmp : B → B → Z)
    (f : string * A → B) (m : gmap string A) (b : B) :
  b ∈ SortFunc cmp (f <$> rangeOrder m) ↔ ∃ k e, m !! k = Some e ∧ b = f (k, e).
Proof.
  rewrite SortFunc_perm, rangeOrder_perm, list_elem_of_fmap. split.
  - intros [[k e] [-> Hin%elem_of_map_to_list]]. eauto.
  - intros (k & e & Hin%elem_of_map_to_list & ->). eauto.
Qed.

Lemma counters_lookup {A} key (fresh : Transaction → A) step count weight
    (g : gmap string A) l k :
  (∀ tx, count (fresh tx) = 0) →
  (∀ tx e, count (step tx e) = int_add (count e) (weight tx)) →
  count <$> g = count <$> aggr key fresh step ∅ l →
  count <$> g !! k = countOf key weight k l.
Proof.
  intros Hf Hs Hg. rewrite <- (count_aggr key fresh step count weight Hf Hs).
  by rewrite <- !lookup_fmap, Hg.
Qed.

Lemma omap_length_le {A B} (f : A → option B) l :
  (length (omap f l) ≤ length l)%nat.
Proof. induction l as [|x l IH]; cbn; [lia|]. destruct (f x); cbn; lia. Qed.

Section StreamResult.
Context `{!StdLib} `{!SliceSort} `{!MapRange} `{!ChanOrder}.

(** A successful stream finalizes the maps of an ingestion that went through,
    on a file without scan error and with a count that is not zero. *)
Lemma stream_success_inv a ctx f now a' :
  streamProcessCSV a ctx (Some f) now = (a', None) →
  ∃ g n, ingest ctx (tail (sf_lines f)) = inr (g, n) ∧
         sf_scanErr f = false ∧ n ≠ 0 ∧
         a' = {| precomputed := finalize g now n; csvPath := csvPath a;
                 recordsProcessed := n |}.
Proof.
  rewrite streamProcessCSV_ingest. destruct (sf_lines f) as [|h rows]; [done|].
  cbn [tail]. destruct (ingest ctx rows) as [?|[g n]]; [done|].
  destruct (sf_scanErr f); [done|].
  destruct (Z.eqb_spec n 0) as [?|Hn]; [done|].
  intros [= <-]. by exists g, n.
Qed.

(** X1: after a successful stream the record count of the snapshot, which is
    also the processed counter, is the number of data rows that parsed
    (wrapped to an int64, so exactly that number for any file of fewer than
    2^63 rows), not the number of lines; it is not zero, and the snapshot
    carries the time of the load. *)
Theorem stream_record_count (a a' : Analytics) (ctx : Context) (f : SourceFile)
    (now : Time) :
  streamProcessCSV a ctx (Some f) now = (a', None) →
  pd_RecordCount (precomputed a') =
    int_wrap (Z.of_nat (length (validRows (tail (sf_lines f))))) ∧
  (Z.of_nat (length (tail (sf_lines f))) < 2 ^ 63 →
   pd_RecordCount (precomputed a') =
     Z.of_nat (length (validRows (tail (sf_lines f))))) ∧
  recordsProcessed a' = pd_RecordCount (precomputed a') ∧
  pd_RecordCount (precomputed a') ≠ 0 ∧
  pd_LastModified (precomputed a') = now ∧
  csvPath a' = csvPath a.
Proof.
  intros (g & n & Hi & _ & Hn & ->)%stream_success_inv.
  apply ingest_ingested in Hi as (-> & _ & _). cbn. repeat split; try done.
  intros Hlen. apply int_wrap_small. unfold int_range, validRows.
  pose proof (omap_length_le parseLine (tail (sf_lines f))). lia.
Qed.

(** X2: after a successful stream the product rollup has one entry for each
    product name of a row that parsed and no other, and the frequency of an
    entry is the number of such rows with its name, whatever the batch
    boundaries and the order in which the parse tasks deliver. *)
Theorem stream_product_frequencies (a a' : Analytics) (ctx : Context)
    (f : SourceFile) (now : Time) :
  streamProcessCSV a ctx (Some f) now = (a', None) →
  (∀ e, e ∈ pd_TopProducts (precomputed a') →
     seen (pf_ProductName e) (validRows (tail (sf_lines f))) ≠ [] ∧
     pf_Frequency e =
       int_wrap (Z.of_nat
         (length (seen (pf_ProductName e) (validRows (tail (sf_lines f))))))) ∧
  (∀ p, seen p (validRows (tail (sf_lines f))) ≠ [] →
     ∃ e, e ∈ pd_TopProducts (precomputed a') ∧ pf_ProductName e = p).
Proof.
  intros (g & n & Hi & _ & _ & ->)%stream_success_inv.
  apply ingest_ingested in Hi as (_ & (_ & Hc & _ & _) & (_ & Hk & _)).
  cbn [precomputed finalize pd_TopProducts]. unfold sortTopProducts.
  revert Hc. unfold_groups. intros Hc.
  assert (∀ k, pf_Frequency <$> productGroups g !! k =
               countOf tx_ProductName (λ _, 1) k (validRows (tail (sf_lines f))))
    as Hlk.
  { intros k. by apply (counters_lookup _ newProduct (λ _, addProduct)). }
  split.
  - intros e (k & e' & He & ->)%elem_of_sorted. cbn [snd].
    specialize (Hlk k). rewrite He in Hlk. rewrite (Hk k e' He).
    unfold countOf, seen in *.
    destruct (touching tx_ProductName k _) as [|t l]; [done|].
    split; [done|]. rewrite weights_one in Hlk. by injection Hlk as ->.
  - intros p Hp. specialize (Hlk p). unfold countOf, seen in *.
    destruct (productGroups g !! p) as [e|] eqn:He.
    + exists e. split; [|by apply Hk]. apply elem_of_sorted. by exists p, e.
    + by destruct (touching tx_ProductName p _).
Qed.
End StreamResult.

Lemma rollup_counters `{!SliceSort} `{!MapRange} {A} key (fresh : Transaction → A)
    step count weight (keyOf : A → string) (cmp : A → A → Z)
    (m : gmap string A) l :
  (∀ tx, count (fresh tx) = 0) →
  (∀ tx e, count (step tx e) = int_add (count e) (weight tx)) →
  count <$> m = count <$> aggr key fresh step ∅ l →
  map_Forall (λ k e, keyOf e = k) m →
  (∀ e, e ∈ SortFunc cmp (snd <$> rangeOrder m) →
     touching key (keyOf e) l ≠ [] ∧
     count e = int_wrap (weights weight (touching key (keyOf e) l))) ∧
  (∀ k, touching key k l ≠ [] →
     ∃ e, e ∈ SortFunc cmp (snd <$> rangeOrder m) ∧ keyOf e = k).
Proof.
  intros Hf Hs Hc Hk.
  pose proof (λ k, counters_lookup key fresh step count weight m l k Hf Hs Hc)
    as Hlk.
  split.
  - intros e (k & e' & He & ->)%elem_of_sorted. cbn [snd].
    specialize (Hlk k). rewrite He in Hlk. rewrite (Hk k e' He).
    unfold countOf in Hlk. destruct (touching key k l) as [|t f]; [done|].
    split; [done|]. by injection Hlk as ->.
  - intros k Hne. specialize (Hlk k). unfold countOf in Hlk.
    destruct (m !! k) as [e|] eqn:He.
    + exists e. split; [|by apply Hk]. apply elem_of_sorted. by exists k, e.
    + by destruct (touching key k l).
Qed.

Definition mixedSource : SourceFile :=
  {| sf_modTime := jan15; sf_lines := [headerRow; badPriceRow; laptopRow];
     sf_scanErr := false |}.

Lemma mixedSource_streams :
  streamProcessCSV NewAnalytics Background (Some mixedSource) feb01 =
    ((streamProcessCSV NewAnalytics Background (Some mixedSource) feb01).1, None).
Proof. vm_compute. reflexivity. Qed.

Lemma stream_record_count_witness :
  pd_RecordCount
    (precomputed
       (streamProcessCSV NewAnalytics Background (Some mixedSource) feb01).1)
  = int_wrap 1.
Proof.
  exact (proj1 (stream_record_count _ _ _ _ _ mixedSource_streams)).
Defined.

Lemma stream_product_frequencies_witness :
  ∃ e, e ∈ pd_TopProducts
             (precomputed
                (streamProcessCSV NewAnalytics Background (Some mixedSource)
                   feb01).1)
       ∧ pf_ProductName e = "Laptop".
Proof.
  apply (proj2 (stream_product_frequencies _ _ _ _ _ mixedSource_streams)).
  vm_compute. discriminate.
Defined.

Section StreamRollups.
Context `{!StdLib} `{!SliceSort} `{!MapRange} `{!ChanOrder}.

(** X3: after a successful stream the region rollup has one entry for each
    region of a row that parsed and no other, and the items sold of an entry
    are the sum of the quantities of the rows of its region (wrapped to an
    int), whatever the batch boundaries and the delivery order. *)
Theorem stream_region_items (a a' : Analytics) (ctx : Context)
    (f : SourceFile) (now : Time) :
  streamProcessCSV a ctx (Some f) now = (a', None) →
  (∀ e, e ∈ pd_TopRegions (precomputed a') →
     touching tx_Region (rr_Region e) (validRows (tail (sf_lines f))) ≠ [] ∧
     rr_ItemsSold e =
       int_wrap (weights tx_Quantity
         (touching tx_Region (rr_Region e) (validRows (tail (sf_lines f)))))) ∧
  (∀ r, touching tx_Region r (validRows (tail (sf_lines f))) ≠ [] →
     ∃ e, e ∈ pd_TopRegions (precomputed a') ∧ rr_Region e = r).
Proof.
  intros (g & n & Hi & _ & _ & ->)%stream_success_inv.
  apply ingest_ingested in Hi as (_ & (_ & _ & _ & Hc) & (_ & _ & Hk)).
  cbn [precomputed finalize pd_TopRegions]. unfold sortTopRegions.
  revert Hc. unfold_groups. intros Hc.
  by apply (rollup_counters tx_Region newRegion addRegion rr_ItemsSold
              tx_Quantity rr_Region).
Qed.

(** X4: after a successful stream the country rollup has one entry for each
    composite key of a row that parsed and no other, and the transaction
    count of an entry is the number of rows with the key of its triple. *)
Theorem stream_country_transactions (a a' : Analytics) (ctx : Context)
    (f : SourceFile) (now : Time) :
  streamProcessCSV a ctx (Some f) now = (a', None) →
  (∀ e, e ∈ pd_CountryRevenue (precomputed a') →
     touching countryKey (tripleKey (crIdent e))
       (validRows (tail (sf_lines f))) ≠ [] ∧
     cr_Transactions e =
       int_wrap (Z.of_nat (length
         (touching countryKey (tripleKey (crIdent e))
            (validRows (tail (sf_lines f))))))) ∧
  (∀ k, touching countryKey k (validRows (tail (sf_lines f))) ≠ [] →
     ∃ e, e ∈ pd_CountryRevenue (precomputed a') ∧ tripleKey (crIdent e) = k).
Proof.
  intros (g & n & Hi & _ & _ & ->)%stream_success_inv.
  apply ingest_ingested in Hi as (_ & (Hc & _ & _ & _) & (Hk & _ & _)).
  cbn [precomputed finalize pd_CountryRevenue]. unfold sortCountryRevenue.
  revert Hc. unfold_groups. intros Hc.
  pose proof (rollup_counters countryKey newCountry addCountry cr_Transactions
                (λ _, 1) (λ e, tripleKey (crIdent e)) cmpCountry
                (countryGroups g) (validRows (tail (sf_lines f)))
                ltac:(done) ltac:(done) Hc Hk) as [Hin Hout].
  split; [|done]. intros e He. destruct (Hin e He) as [Hne Hcount].
  split; [done|]. by rewrite Hcount, weights_one.
Qed.

(** X5: after a successful stream the monthly rollup has exactly one entry
    for each month ("YYYY-MM") in which a row that parsed is dated. *)
Theorem stream_months (a a' : Analytics) (ctx : Context)
    (f : SourceFile) (now : Time) :
  streamProcessCSV a ctx (Some f) now = (a', None) →
  NoDup (md_Month <$> pd_MonthlySales (precomputed a')) ∧
  (∀ k, k ∈ md_Month <$> pd_MonthlySales (precomputed a') ↔
        k ∈ monthKey <$> validRows (tail (sf_lines f))).
Proof.
  intros (g & n & Hi & _ & _ & ->)%stream_success_inv.
  apply ingest_ingested in Hi as (_ & (_ & _ & Hc & _) & _).
  cbn [precomputed finalize pd_MonthlySales]. unfold sortMonthlySales.
  revert Hc. unfold_groups. intros Hc.
  assert (md_Month <$> SortFunc cmpMonthly (toMonthlyData <$> rangeOrder (monthlyGroups g))
          ≡ₚ (map_to_list (monthlyGroups g)).*1) as Hp.
  { rewrite SortFunc_perm, rangeOrder_perm, <- list_fmap_compose.
    erewrite (list_fmap_ext _ fst); [done|]. by intros ? []. }
  split; [rewrite Hp; apply NoDup_fst_map_to_list|].
  intros k. rewrite Hp.
  pose proof (counters_lookup monthKey (λ _, 0%float) addMonthly (λ _, 0)
                (λ _, 0) (monthlyGroups g) (validRows (tail (sf_lines f))) k
                ltac:(done) ltac:(done) Hc) as Hlk.
  pose proof (touching_nil monthKey k (validRows (tail (sf_lines f)))) as Hnil.
  unfold countOf in Hlk.
  rewrite list_elem_of_fmap. split.
  - intros [[k' v] [-> Hin%elem_of_map_to_list]]. cbn in *.
    rewrite Hin in Hlk.
    destruct (decide (k' ∈ monthKey <$> validRows (tail (sf_lines f))))
      as [|Hno]; [done|].
    apply Hnil in Hno. by rewrite Hno in Hlk.
  - intros Hin. destruct (monthlyGroups g !! k) as [v|] eqn:Hv.
    + exists (k, v). split; [done|]. by apply elem_of_map_to_list.
    + destruct (touching monthKey k _); [|done]. by apply Hnil in Hin.
Qed.
End StreamRollups.

Lemma stream_region_items_witness :
  ∃ e, e ∈ pd_TopRegions
             (precomputed
                (streamProcessCSV NewAnalytics Background (Some mixedSource)
                   feb01).1)
       ∧ rr_Region e = "California".
Proof.
  apply (proj2 (stream_region_items _ _ _ _ _ mixedSource_streams)).
  vm_compute. discriminate.
Defined.

Lemma stream_country_transactions_witness :
  ∃ e, e ∈ pd_CountryRevenue
             (precomputed
                (streamProcessCSV NewAnalytics Background (Some mixedSource)
                   feb01).1)
       ∧ tripleKey (crIdent e) = "USA|Laptop|Electronics".
Proof.
  apply (proj2 (stream_country_transactions _ _ _ _ _ mixedSource_streams)).
  vm_compute. discriminate.
Defined.

Lemma stream_months_witness :
  NoDup (md_Month <$>
    pd_MonthlySales
      (precomputed
         (streamProcessCSV NewAnalytics Background (Some mixedSource) feb01).1)).
Proof. exact (proj1 (stream_months _ _ _ _ _ mixedSource_streams)). Defined.

(** ** Cancellation and the outcomes of a stream *)

Section Polls.
Context `{!StdLib} `{!ChanOrder}.

(** Some poll of the context made for one of the first [n] data lines saw it
    cancelled. *)
Definition cancelledWithin (ctx : Context) (n : nat) : Prop :=
  ∃ j, (j < n)%nat ∧ (doneAtScan ctx j = true ∨ doneAtParse ctx j = true).

Lemma processBatch_outcome ctx first batch g n :
  match processBatch ctx first batch g n with
  | inl e =>
      e = ErrCanceled ∧
      ∃ j, (first ≤ j < first + length batch)%nat ∧ doneAtParse ctx j = true
  | inr _ =>
      ∀ j, (first ≤ j < first + length batch)%nat → doneAtParse ctx j = false
  end.
Proof.
  unfold processBatch.
  destruct (existsb _ _) eqn:Hex.
  - split; [done|]. apply existsb_exists in Hex as (j & Hin%in_seq & Hj).
    exists j. split; [lia|done].
  - intros j Hj. apply not_true_is_false. intros Hd.
    assert (existsb (doneAtParse ctx) (seq first (length batch)) = true) as Ht.
    { apply existsb_exists. exists j. split; [apply in_seq; lia|done]. }
    congruence.
Qed.

Lemma scanLoop_outcome ctx rows i batch g n :
  (length batch ≤ i)%nat →
  match scanLoop ctx rows i batch g n with
  | inl e => e = ErrCanceled ∧ cancelledWithin ctx (i + length rows)
  | inr (batch', _, _) =>
      (length batch' ≤ i + length rows)%nat ∧
      (∀ j, (i ≤ j < i + length rows)%nat → doneAtScan ctx j = false) ∧
      (∀ j, (i - length batch ≤ j < i + length rows - length batch')%nat →
            doneAtParse ctx j = false)
  end.
Proof.
  revert i batch g n. induction rows as [|line rows IH]; intros i batch g n Hlen.
  { cbn. repeat split; intros; lia. }
  cbn [scanLoop length]. destruct (doneAtScan ctx i) eqn:Hscan.
  { split; [done|]. exists i. split; [lia|by left]. }
  assert (length (batch ++ [line]) = S (length batch)) as Hb
    by (rewrite length_app; cbn; lia).
  destruct (batchSize <=? _).
  - pose proof (processBatch_outcome ctx (S i - length (batch ++ [line]))
                  (batch ++ [line]) g n) as Hp.
    destruct (processBatch _ _ _ _ _) as [e|[g1 n1]].
    + destruct Hp as (-> & j & Hj & Hd). split; [done|].
      exists j. split; [lia|by right].
    + specialize (IH (S i) [] g1 n1 ltac:(cbn; lia)).
      destruct (scanLoop ctx rows (S i) [] g1 n1) as [e|[[b' g'] n']].
      * destruct IH as (-> & j & Hj & Hd). split; [done|].
        exists j. split; [lia|done].
      * destruct IH as (Hl & Hs & Hpp). cbn [length] in Hpp.
        repeat split; [lia| |].
        -- intros j Hj. destruct (decide (j = i)) as [->|]; [done|].
           apply Hs. lia.
        -- intros j Hj. destruct (decide (j < S i)%nat).
           ++ apply Hp. lia.
           ++ apply Hpp. lia.
  - specialize (IH (S i) (batch ++ [line]) g n ltac:(lia)).
    destruct (scanLoop ctx rows (S i) (batch ++ [line]) g n) as [e|[[b' g'] n']].
    + destruct IH as (-> & j & Hj & Hd). split; [done|].
      exists j. split; [lia|done].
    + destruct IH as (Hl & Hs & Hpp). repeat split; [lia| |].
      * intros j Hj. destruct (decide (j = i)) as [->|]; [done|].
        apply Hs. lia.
      * intros j Hj. apply Hpp. lia.
Qed.

(** Ingestion fails only by cancellation, and exactly when one of the polls
    made for the data lines saw the context cancelled. *)
Lemma ingest_outcome ctx rows :
  match ingest ctx rows with
  | inl e => e = ErrCanceled ∧ cancelledWithin ctx (length rows)
  | inr _ => ¬ cancelledWithin ctx (length rows)
  end.
Proof.
  unfold ingest.
  pose proof (scanLoop_outcome ctx rows 0 [] emptyGroups 0 ltac:(cbn; lia)) as Hs.
  destruct (scanLoop _ _ _ _ _ _) as [e|[[batch g] n]]; [done|].
  destruct Hs as (Hl & Hscan & Hparse). cbn in Hl, Hscan, Hparse.
  assert (∀ j, (j < length rows - length batch)%nat → doneAtParse ctx j = false)
    as Hparse' by (intros; apply Hparse; lia).
  destruct (0 <? _) eqn:Hnonempty.
  - pose proof (processBatch_outcome ctx (length rows - length batch) batch g n)
      as Hp.
    destruct (processBatch _ _ _ _ _) as [e|[g' n']].
    + destruct Hp as (-> & j & Hj & Hd). split; [done|].
      exists j. split; [lia|by right].
    + intros (j & Hj & [Hd|Hd]).
      * rewrite Hscan in Hd by lia. done.
      * destruct (decide (j < length rows - length batch)%nat).
        -- rewrite Hparse' in Hd by done. done.
        -- rewrite Hp in Hd by lia. done.
  - apply Z.ltb_ge in Hnonempty.
    intros (j & Hj & [Hd|Hd]).
    + rewrite Hscan in Hd by lia. done.
    + rewrite Hparse' in Hd by lia. done.
Qed.
End Polls.

Section Outcomes.
Context `{!StdLib} `{!SliceSort} `{!MapRange} `{!ChanOrder}.

Lemma stream_error_state a ctx file now a' e :
  streamProcessCSV a ctx file now = (a', Some e) → a' = a.
Proof.
  destruct file as [f|]; [|by intros [= <-]].
  rewrite streamProcessCSV_ingest. destruct (sf_lines f); [by intros [= <-]|].
  destruct (ingest _ _) as [?|[g n]]; [by intros [= <-]|].
  destruct (sf_scanErr f); [by intros [= <-]|].
  destruct (n =? 0); [by intros [= <-]|done].
Qed.

(** X6: a load that returns an error publishes nothing: the snapshot and the
    processed counter are those from before the call and no cache file is
    written; only the remembered path changes. The error wraps the cause
    found while processing the file. *)
Theorem load_error_keeps_state (a : Analytics) (ctx : Context) (fs : FileSystem)
    (filename : string) (now : Time) (e : Error) :
  lr_err (LoadFromCSV a ctx fs filename now) = Some e →
  precomputed (lr_analytics (LoadFromCSV a ctx fs filename now)) = precomputed a ∧
  recordsProcessed (lr_analytics (LoadFromCSV a ctx fs filename now))
    = recordsProcessed a ∧
  csvPath (lr_analytics (LoadFromCSV a ctx fs filename now)) = filename ∧
  lr_fs (LoadFromCSV a ctx fs filename now) = fs ∧
  ∃ cause, e = ErrProcessCSV cause.
Proof.
  assert (∀ e, lr_err (recompute (setCsvPath a filename) ctx fs filename now)
               = Some e →
     precomputed (lr_analytics (recompute (setCsvPath a filename) ctx fs filename now))
       = precomputed a ∧
     recordsProcessed (lr_analytics (recompute (setCsvPath a filename) ctx fs filename now))
       = recordsProcessed a ∧
     csvPath (lr_analytics (recompute (setCsvPath a filename) ctx fs filename now))
       = filename ∧
     lr_fs (recompute (setCsvPath a filename) ctx fs filename now) = fs ∧
     ∃ cause, e = ErrProcessCSV cause) as Hre.
  { intros e'. unfold recompute.
    destruct (streamProcessCSV _ _ _ _) as [a' [err|]] eqn:Hs.
    - apply stream_error_state in Hs as ->. cbn. intros [= <-]. eauto 10.
    - by destruct (saveToCache _ _ _). }
  unfold LoadFromCSV. destruct (loadFromCache fs filename) as [?|cached]; [apply Hre|].
  destruct (cacheFresh fs filename cached); [done|apply Hre].
Qed.

(** X7: when a poll of the context made for one of the data lines, in the
    scanning loop or in a parse task, sees it cancelled, the stream ends with
    the cancellation error and the snapshot stays. *)
Theorem cancelled_stream_fails (a : Analytics) (ctx : Context) (f : SourceFile)
    (now : Time) :
  sf_lines f ≠ [] →
  cancelledWithin ctx (length (tail (sf_lines f))) →
  streamProcessCSV a ctx (Some f) now = (a, Some ErrCanceled).
Proof.
  intros Hne Hc. rewrite streamProcessCSV_ingest.
  destruct (sf_lines f) as [|h rows]; [done|]. cbn [tail] in Hc.
  pose proof (ingest_outcome ctx rows) as Ho.
  destruct (ingest ctx rows) as [e|[g n]]; [by destruct Ho as [-> _]|done].
Qed.

(** X8: when no poll sees the context cancelled, a stream over a file with a
    header line ends in exactly one of three ways: a scan error is fatal
    even if rows parsed, no row that parses is fatal, and otherwise (for a
    file of fewer than 2^63 rows) it succeeds. *)
Theorem uncancelled_stream_outcome (a : Analytics) (ctx : Context)
    (f : SourceFile) (now : Time) :
  sf_lines f ≠ [] →
  ¬ cancelledWithin ctx (length (tail (sf_lines f))) →
  (sf_scanErr f = true →
     streamProcessCSV a ctx (Some f) now = (a, Some ErrScan)) ∧
  (sf_scanErr f = false → validRows (tail (sf_lines f)) = [] →
     streamProcessCSV a ctx (Some f) now = (a, Some ErrNoValidRecords)) ∧
  (sf_scanErr f = false → validRows (tail (sf_lines f)) ≠ [] →
   Z.of_nat (length (tail (sf_lines f))) < 2 ^ 63 →
     (streamProcessCSV a ctx (Some f) now).2 = None).
Proof.
  intros Hne Hc. rewrite streamProcessCSV_ingest.
  destruct (sf_lines f) as [|h rows]; [done|]. cbn [tail] in *.
  pose proof (ingest_outcome ctx rows) as Ho.
  destruct (ingest ctx rows) as [e|[g n]] eqn:Hi; [by destruct Ho as [_ ?]|].
  apply ingest_ingested in Hi as (-> & _ & _).
  repeat split.
  - by intros ->.
  - intros -> ->. done.
  - intros -> Hv Hlen.
    rewrite int_wrap_small.
    + destruct (validRows rows); [done|]. done.
    + unfold int_range, validRows.
      pose proof (omap_length_le parseLine rows). lia.
Qed.

(** X9: after a load that succeeded on a writable cache directory, with the
    source file last modified before the load, a later load of the same path
    takes the cache path and publishes the same snapshot, whatever the
    engine held in between. *)
Theorem reload_uses_cache (a a2 : Analytics) (ctx ctx2 : Context)
    (fs : FileSystem) (filename : string) (now now2 : Time) :
  lr_err (LoadFromCSV a ctx fs filename now) = None →
  fs_writable fs = true →
  (∀ f, fs_source fs !! filename = Some f →
        instant (sf_modTime f) < instant now) →
  installedFromCache
    (LoadFromCSV a2 ctx2 (lr_fs (LoadFromCSV a ctx fs filename now)) filename now2)
    (precomputed (lr_analytics (LoadFromCSV a ctx fs filename now))).
Proof.
  intros Herr Hw Hmod.
  assert (lr_err (recompute (setCsvPath a filename) ctx fs filename now) = None →
    installedFromCache
      (LoadFromCSV a2 ctx2
         (lr_fs (recompute (setCsvPath a filename) ctx fs filename now))
         filename now2)
      (precomputed
         (lr_analytics (recompute (setCsvPath a filename) ctx fs filename now))))
    as Hre.
  { unfold recompute.
    destruct (streamProcessCSV _ _ _ _) as [a' [err|]] eqn:Hs; [done|].
    intros _. unfold saveToCache. rewrite Hw. cbn [lr_fs lr_analytics].
    destruct (fs_source fs !! filename) as [f|] eqn:Hf; [|done].
    apply stream_success_inv in Hs as (g & n & _ & _ & _ & ->).
    apply cache_fresh_installs.
    - unfold loadFromCache. cbn. by rewrite lookup_insert_eq.
    - unfold cacheFresh. cbn. rewrite Hf. unfold Before.
      apply Z.ltb_lt. by apply Hmod. }
  assert (LoadFromCSV a ctx fs filename now =
            recompute (setCsvPath a filename) ctx fs filename now ∨
          ∃ cached, loadFromCache fs filename = inr cached ∧
                    cacheFresh fs filename cached = true ∧
                    LoadFromCSV a ctx fs filename now =
                      {| lr_analytics := setPrecomputed (setCsvPath a filename) cached;
                         lr_fs := fs;
                         lr_log := [LoadedFromCache (pd_RecordCount cached)];
                         lr_err := None |}) as [Heq|(cached & Hc & Hfresh & Heq)].
  { unfold LoadFromCSV.
    destruct (loadFromCache fs filename) as [?|cached] eqn:Hc; [by left|].
    destruct (cacheFresh fs filename cached) eqn:Hfresh; [|by left].
    right. by exists cached. }
  - rewrite Heq in Herr |- *. by apply Hre.
  - rewrite Heq. cbn. by apply cache_fresh_installs.
Qed.

End Outcomes.

Lemma load_error_keeps_state_witness :
  precomputed
    (lr_analytics (LoadFromCSV NewAnalytics Background headerOnly "sales.csv" feb01))
  = precomputed NewAnalytics.
Proof.
  exact (proj1 (load_error_keeps_state NewAnalytics Background headerOnly
                  "sales.csv" feb01 (ErrProcessCSV ErrNoValidRecords)
                  ltac:(vm_compute; reflexivity))).
Defined.

(** A context that is already cancelled when the load starts. *)
Definition cancelledContext : Context :=
  {| doneAtScan := λ _, true; doneAtParse := λ _, true |}.

Lemma cancelled_stream_fails_witness :
  streamProcessCSV NewAnalytics cancelledContext (Some mixedSource) feb01
  = (NewAnalytics, Some ErrCanceled).
Proof.
  apply cancelled_stream_fails; [discriminate|].
  exists 0%nat. split; [cbn; lia|by left].
Defined.

Lemma Background_not_cancelled n : ¬ cancelledWithin Background n.
Proof. intros (j & _ & [H|H]); discriminate. Qed.

Lemma uncancelled_stream_outcome_witness :
  (streamProcessCSV NewAnalytics Background (Some mixedSource) feb01).2 = None.
Proof.
  apply (uncancelled_stream_outcome NewAnalytics Background mixedSource feb01
           ltac:(discriminate) (Background_not_cancelled _)).
  - reflexivity.
  - vm_compute. discriminate.
  - cbn. lia.
Defined.

Lemma reload_uses_cache_witness :
  installedFromCache
    (LoadFromCSV NewAnalytics Background
       (lr_fs (LoadFromCSV NewAnalytics Background mixedFile "sales.csv" feb01))
       "sales.csv" feb01)
    (precomputed
       (lr_analytics (LoadFromCSV NewAnalytics Background mixedFile "sales.csv" feb01))).
Proof.
  apply reload_uses_cache.
  - vm_compute. reflexivity.
  - reflexivity.
  - intros f Hf. vm_compute in Hf. injection Hf as <-. cbn. lia.
Defined.


(** ** What computeAnalytics puts in the rollups *)

Lemma region_entry l k :
  regionGroups (onePass l) !! k =
    match touching tx_Region k l with
    | [] => None
    | f => Some {| rr_Region := k; rr_Revenue := fsum (tx_TotalPrice <$> f);
                   rr_ItemsSold := int_wrap (weights tx_Quantity f) |}
    end.
Proof.
  pose proof (region_total_whole l k) as Ht. unfold regionPrices in Ht.
  pose proof (keyedBy_aggr tx_Region newRegion addRegion rr_Region
                ltac:(done) ltac:(done) l k) as Hk.
  pose proof (count_aggr tx_Region newRegion addRegion rr_ItemsSold tx_Quantity
                ltac:(done) ltac:(done) k l) as Hc.
  revert Ht. unfold_groups. intros Ht. unfold countOf in Hc.
  destruct (aggr tx_Region newRegion addRegion ∅ l !! k) as [[r v n]|] eqn:He;
    destruct (touching tx_Region k l) as [|t f]; try done.
  specialize (Hk _ eq_refl). cbn in Hk, Ht, Hc. by simplify_eq.
Qed.

Lemma country_entry l k :
  countryGroups (onePass l) !! k =
    match touching countryKey k l with
    | [] => None
    | t :: f =>
        Some {| cr_Country := tx_Country t; cr_ProductName := tx_ProductName t;
                cr_Category := tx_Category t;
                cr_TotalRevenue := fsum (tx_TotalPrice <$> t :: f);
                cr_Transactions := int_wrap (Z.of_nat (length (t :: f))) |}
    end.
Proof.
  pose proof (country_total_whole l k) as Ht. unfold countryPrices in Ht.
  pose proof (ident_aggr countryKey newCountry addCountry crIdent
                ltac:(done) k l) as Hi.
  pose proof (count_aggr countryKey newCountry addCountry cr_Transactions
                (λ _, 1) ltac:(done) ltac:(done) k l) as Hc.
  revert Ht. unfold_groups. intros Ht. unfold countOf in Hc.
  destruct (aggr countryKey newCountry addCountry ∅ l !! k) as [[c p g v n]|] eqn:He;
    destruct (touching countryKey k l) as [|t f]; try done.
  rewrite weights_one in Hc. cbn in Hi, Ht, Hc. by simplify_eq.
Qed.

Section ComputedRollups.
Context `{!SliceSort} `{!MapRange}.

Lemma elem_of_sorted_values {A} (cmp : A → A → Z) (m : gmap string A) (e : A) :
  e ∈ SortFunc cmp (snd <$> rangeOrder m) ↔ ∃ k, m !! k = Some e.
Proof.
  rewrite elem_of_sorted. split.
  - intros (k & e' & He & ->). eauto.
  - intros [k He]. eauto.
Qed.

(** X11: the monthly rollup computed from a list of transactions has exactly
    one entry for each month in which a transaction is dated, and its volume
    is the float64 sum of the total prices of that month's transactions,
    added from zero in the order of the list. *)
Theorem monthly_sales_entries (data : list Transaction) (now : Time) :
  NoDup (md_Month <$> pd_MonthlySales (computeAnalytics data now)) ∧
  ∀ e, e ∈ pd_MonthlySales (computeAnalytics data now) ↔
       monthPrices (md_Month e) data ≠ [] ∧
       md_Volume e = fsum (monthPrices (md_Month e) data).
Proof.
  unfold computeAnalytics, finalize, sortMonthlySales. cbn [pd_MonthlySales].
  fold (onePass data). split.
  - rewrite SortFunc_perm, rangeOrder_perm, <- list_fmap_compose.
    erewrite (list_fmap_ext _ fst); [apply NoDup_fst_map_to_list|].
    by intros ? [].
  - intros [month volume]. rewrite elem_of_sorted.
    setoid_rewrite monthly_total_whole. cbn [md_Month md_Volume]. split.
    + intros (k & v & Hv & [= -> ->]).
      destruct (monthPrices k data); [done|]. by injection Hv as <-.
    + intros [Hne ->]. exists month, (fsum (monthPrices month data)).
      split; [|done]. by destruct (monthPrices month data).
Qed.

(** X12: the region rollup computed from a list of transactions has an entry
    for a region exactly when a transaction names it; its revenue is the
    float64 sum of the total prices of the region's transactions in list
    order and its items sold the sum of their quantities (wrapped to an
    int). *)
Theorem top_regions_entries (data : list Transaction) (now : Time) :
  NoDup (rr_Region <$> pd_TopRegions (computeAnalytics data now)) ∧
  ∀ e, e ∈ pd_TopRegions (computeAnalytics data now) ↔
       touching tx_Region (rr_Region e) data ≠ [] ∧
       rr_Revenue e = fsum (regionPrices (rr_Region e) data) ∧
       rr_ItemsSold e =
         int_wrap (weights tx_Quantity (touching tx_Region (rr_Region e) data)).
Proof.
  unfold computeAnalytics, finalize, sortTopRegions. cbn [pd_TopRegions].
  fold (onePass data). split.
  - rewrite SortFunc_perm, rangeOrder_perm, <- list_fmap_compose.
    erewrite (list_fmap_ext _ fst); [apply NoDup_fst_map_to_list|].
    intros i [k e] Hl. cbn.
    assert (regionGroups (onePass data) !! k = Some e) as He
      by (apply elem_of_map_to_list; eapply list_elem_of_lookup_2, Hl).
    rewrite region_entry in He.
    destruct (touching tx_Region k data); [done|]. by injection He as <-.
  - intros [region revenue items]. rewrite elem_of_sorted_values.
    setoid_rewrite region_entry. cbn [rr_Region rr_Revenue rr_ItemsSold].
    unfold regionPrices. split.
    + intros (k & He). destruct (touching tx_Region k data) eqn:Hk; [done|].
      injection He as <- <- <-. by rewrite Hk.
    + intros (Hne & -> & ->). exists region.
      by destruct (touching tx_Region region data).
Qed.
End ComputedRollups.

Lemma product_lookup l p :
  productGroups (onePass l) !! p =
    (λ t, {| pf_ProductName := p; pf_Category := tx_Category t;
             pf_Frequency := int_wrap (Z.of_nat (length (seen p l)));
             pf_StockQuantity := tx_Stock t |}) <$> firstSeen p l.
Proof.
  destruct (firstSeen p l) as [t|] eqn:Hf; [by apply product_entry|].
  cbn. unfold onePass. rewrite productGroups_aggregateAll.
  cbn [productGroups emptyGroups]. rewrite aggr_lookup, lookup_empty.
  apply evolve_None. unfold firstSeen, seen in Hf.
  by destruct (touching tx_ProductName p l).
Qed.

Section ComputedEntries.
Context `{!SliceSort} `{!MapRange}.

(** X13: the product rollup computed from a list of transactions has an
    entry for a product name exactly when a transaction has it; the entry
    carries the category and the stock of the first such transaction and
    counts all of them. *)
Theorem top_products_entries (data : list Transaction) (now : Time) :
  NoDup (pf_ProductName <$> pd_TopProducts (computeAnalytics data now)) ∧
  ∀ e, e ∈ pd_TopProducts (computeAnalytics data now) ↔
       ∃ t, firstSeen (pf_ProductName e) data = Some t ∧
            pf_Category e = tx_Category t ∧
            pf_StockQuantity e = tx_Stock t ∧
            pf_Frequency e =
              int_wrap (Z.of_nat (length (seen (pf_ProductName e) data))).
Proof.
  unfold computeAnalytics, finalize, sortTopProducts. cbn [pd_TopProducts].
  fold (onePass data). split.
  - rewrite SortFunc_perm, rangeOrder_perm, <- list_fmap_compose.
    erewrite (list_fmap_ext _ fst); [apply NoDup_fst_map_to_list|].
    intros i [k e] Hl. cbn.
    assert (productGroups (onePass data) !! k = Some e) as He
      by (apply elem_of_map_to_list; eapply list_elem_of_lookup_2, Hl).
    rewrite product_lookup in He.
    destruct (firstSeen k data); [|done]. by injection He as <-.
  - intros [name category frequency stock]. rewrite elem_of_sorted_values.
    setoid_rewrite product_lookup.
    cbn [pf_ProductName pf_Category pf_Frequency pf_StockQuantity]. split.
    + intros (k & He). destruct (firstSeen k data) as [t|] eqn:Ht; [|done].
      injection He as <- <- <- <-. exists t. by rewrite Ht.
    + intros (t & Ht & -> & -> & ->). exists name. by rewrite Ht.
Qed.

(** X14: the country rollup computed from a list of transactions has one
    entry for each composite key of a transaction; the entry carries the
    country, product and category of the first transaction with that key,
    the float64 sum of the total prices of all of them in list order, and
    their number. *)
Theorem country_revenue_entries (data : list Transaction) (now : Time) :
  ∀ e, e ∈ pd_CountryRevenue (computeAnalytics data now) ↔
       ∃ k t f, touching countryKey k data = t :: f ∧
                crIdent e = (tx_Country t, tx_ProductName t, tx_Category t) ∧
                cr_TotalRevenue e = fsum (countryPrices k data) ∧
                cr_Transactions e = int_wrap (Z.of_nat (length (t :: f))).
Proof.
  unfold computeAnalytics, finalize, sortCountryRevenue. cbn [pd_CountryRevenue].
  fold (onePass data).
  intros [country product category revenue count].
  rewrite elem_of_sorted_values. setoid_rewrite country_entry.
  unfold crIdent, countryPrices.
  cbn [cr_Country cr_ProductName cr_Category cr_TotalRevenue cr_Transactions].
  split.
  - intros (k & He). destruct (touching countryKey k data) as [|t f] eqn:Hk;
      [done|].
    injection He as <- <- <- <- <-. exists k, t, f. by rewrite Hk.
  - intros (k & t & f & Hk & [= -> -> ->] & -> & ->). exists k. by rewrite Hk.
Qed.
End ComputedEntries.

(** ** Stats *)

Inductive StatValue :=
  | StatCount (n : Z)
  | StatTime (t : Time).

(** The [map[string]any] that [Stats] returns. *)
Definition Stats (a : Analytics) : gmap string StatValue :=
  list_to_map
    [ ("record_count", StatCount (pd_RecordCount (precomputed a)));
      ("last_processed", StatTime (pd_LastModified (precomputed a)));
      ("countries", StatCount (Z.of_nat (length (pd_CountryRevenue (precomputed a)))));
      ("products", StatCount (Z.of_nat (length (pd_TopProducts (precomputed a)))));
      ("months", StatCount (Z.of_nat (length (pd_MonthlySales (precomputed a)))));
      ("regions", StatCount (Z.of_nat (length (pd_TopRegions (precomputed a))))) ].

(** The number of distinct values [key] takes on [data]. *)
Definition distinct (key : Transaction → string) (data : list Transaction) : Z :=
  Z.of_nat (size (list_to_set (key <$> data) : gset string)).

Lemma sorted_length `{!SliceSort} `{!MapRange} {A B} (cmp : B → B → Z)
    (f : string * A → B) (m : gmap string A) :
  length (SortFunc cmp (f <$> rangeOrder m)) = size (dom m).
Proof.
  by rewrite SortFunc_perm, length_fmap, rangeOrder_perm, length_map_to_list,
    size_dom.
Qed.

(** X15: after [SetData] the statistics report the length of the input as
    record count, the time of the call, and as sizes of the four rollups the
    numbers of distinct composite keys, product names, months and regions of
    the input. *)
Theorem stats_after_SetData `{!SliceSort} `{!MapRange} (a : Analytics)
    (data : list Transaction) (now now' : Time) :
  Stats (SetData a data now now') !! "record_count"
    = Some (StatCount (Z.of_nat (length data))) ∧
  Stats (SetData a data now now') !! "last_processed" = Some (StatTime now') ∧
  Stats (SetData a data now now') !! "countries"
    = Some (StatCount (distinct countryKey data)) ∧
  Stats (SetData a data now now') !! "products"
    = Some (StatCount (distinct tx_ProductName data)) ∧
  Stats (SetData a data now now') !! "months"
    = Some (StatCount (distinct monthKey data)) ∧
  Stats (SetData a data now now') !! "regions"
    = Some (StatCount (distinct tx_Region data)).
Proof.
  unfold Stats, SetData, computeAnalytics, finalize.
  cbn [precomputed setPrecomputed pd_RecordCount pd_LastModified
       pd_CountryRevenue pd_TopProducts pd_MonthlySales pd_TopRegions].
  unfold sortCountryRevenue, sortTopProducts, sortMonthlySales, sortTopRegions.
  rewrite !sorted_length.
  rewrite countryGroups_aggregateAll, productGroups_aggregateAll,
    monthlyGroups_aggregateAll, regionGroups_aggregateAll.
  cbn [countryGroups productGroups monthlyGroups regionGroups emptyGroups].
  rewrite !dom_aggr. repeat split.
Qed.

Lemma stats_sizes_example :
  Stats (SetData NewAnalytics [laptop; laptop; mouse] jan15 feb01) !! "products"
  = Some (StatCount 2).
Proof. vm_compute. reflexivity. Qed.

(** ** The name of a cache file *)

Lemma string_length_app (s t : string) :
  String.length (s +:+ t) = (String.length s + String.length t)%nat.
Proof.
  induction s as [|c s IH]; [done|].
  change (String c s +:+ t) with (String c (s +:+ t)).
  cbn [String.length]. by rewrite IH.
Qed.

Lemma string_app_inv_tail (s1 s2 t : string) : s1 +:+ t = s2 +:+ t → s1 = s2.
Proof.
  revert s2. induction s1 as [|c s1 IH]; intros [|c2 s2] H.
  - done.
  - apply (f_equal String.length) in H.
    rewrite !string_length_app in H. cbn [String.length] in H. lia.
  - apply (f_equal String.length) in H.
    rewrite !string_length_app in H. cbn [String.length] in H. lia.
  - change (String c (s1 +:+ t) = String c2 (s2 +:+ t)) in H.
    injection H as -> H. f_equal. by apply IH.
Qed.

Lemma replaceSlashes_idem s : replaceSlashes (replaceSlashes s) = replaceSlashes s.
Proof.
  induction s as [|c s IH]; [done|]. cbn. rewrite IH. f_equal.
  destruct (Ascii.eqb_spec c "/"); [done|].
  by destruct (Ascii.eqb_spec c "/").
Qed.

(** X16: two source paths are given the same cache file exactly when they
    agree once every [/] is replaced by [_]; so a path and its sanitized
    form share one, and the snapshot saved for one path is what
    [loadFromCache] decodes for the other. *)
Theorem cache_file_shared (p q : string) :
  (getCacheFilename p = getCacheFilename q ↔ replaceSlashes p = replaceSlashes q) ∧
  getCacheFilename (replaceSlashes p) = getCacheFilename p ∧
  (replaceSlashes p = replaceSlashes q →
   ∀ a fs, fs_writable fs = true →
           loadFromCache (saveToCache a fs p).1 q = inr (precomputed a)).
Proof.
  assert (getCacheFilename p = getCacheFilename q ↔
          replaceSlashes p = replaceSlashes q) as Hiff.
  { unfold getCacheFilename. split; [|by intros ->].
    intros H. apply (inj (String.app cacheDir)), (inj (String.app "/")) in H.
    by apply string_app_inv_tail in H. }
  split; [done|]. split.
  - unfold getCacheFilename. by rewrite replaceSlashes_idem.
  - intros Hpq a fs Hw. unfold saveToCache, loadFromCache. rewrite Hw. cbn.
    rewrite (proj2 Hiff Hpq). by rewrite lookup_insert_eq.
Qed.

(** ** Splitting a line *)

Fixpoint commas (s : string) : nat :=
  match s with
  | EmptyString => 0
  | String c rest => (if Ascii.eqb c ","%char then 1 else 0) + commas rest
  end.

Lemma Split_nonempty s : Split s ≠ [].
Proof.
  destruct s as [|c s]; cbn; [done|].
  destruct (Ascii.eqb c ","); [done|]. by destruct (Split s).
Qed.

Lemma Split_length s : length (Split s) = S (commas s).
Proof.
  induction s as [|c s IH]; [done|]. cbn.
  destruct (Ascii.eqb c ","); cbn; [by rewrite IH|].
  destruct (Split s); cbn in *; lia.
Qed.

Lemma concat_push_char sep c f fs :
  String.concat sep (String c f :: fs) = String c (String.concat sep (f :: fs)).
Proof. by destruct fs. Qed.

Lemma concat_empty_head sep f fs :
  String.concat sep (EmptyString :: f :: fs) = sep +:+ String.concat sep (f :: fs).
Proof. done. Qed.

(** X17: splitting a line on commas gives one field more than the line has
    commas, no field holds a comma, and joining the fields with commas gives
    the line back. There is no quoting: a comma inside a quoted value
    separates fields like any other. *)
Theorem split_fields_join (line : string) :
  length (Split line) = S (commas line) ∧
  Forall (λ f, commas f = 0%nat) (Split line) ∧
  String.concat "," (Split line) = line.
Proof.
  split; [apply Split_length|].
  induction line as [|c s [IHf IHj]]; [by repeat constructor|].
  pose proof (Split_nonempty s) as Hne.
  cbn [Split]. destruct (Ascii.eqb_spec c ","%char) as [->|Hc].
  - split; [by constructor|].
    destruct (Split s) as [|f fs]; [done|].
    by rewrite concat_empty_head, IHj.
  - destruct (Split s) as [|f fs]; [done|]. split.
    + inv IHf. constructor; [|done]. cbn [commas].
      by destruct (Ascii.eqb_spec c ","%char).
    + by rewrite concat_push_char, IHj.
Qed.

(** X18: a line with fewer than twelve commas never parses, whatever its
    fields hold. *)
Theorem short_row_rejected `{!StdLib} (line : string) :
  (commas line < 12)%nat → parseLine line = None.
Proof.
  intros Hc. unfold parseLine, parseTransactionFast.
  rewrite Split_length. by rewrite (proj2 (Z.ltb_lt _ _)) by lia.
Qed.

Lemma short_row_rejected_witness : parseLine "a,b,c" = None.
Proof. apply short_row_rejected. cbn. lia. Defined.

(** * The serving layer around the engine *)

(** ** package handlers: how much of a rollup is served *)

Definition maxTableRows : Z := 50.
Definition maxProducts : Z := 20.
Definition maxRegions : Z := 30.

(** The rows [renderCountryTable] hands to the template: the slice
    expression [slice[:maxTableRows]] when the data is longer. *)
Definition limitCountryRows (data : list CountryRevenue)
    : Run (list CountryRevenue) :=
  if maxTableRows <? Z.of_nat (length data)
  then sliceTo data maxTableRows
  else Returns data.

(** X19: whatever snapshot is published, the handlers get from the engine a
    prefix of each rollup and never a panic: at most 50 country rows are
    rendered, at most 20 products and 30 regions are served. *)
Theorem handlers_serve_prefixes (a : Analytics) :
  limitCountryRows (CountryRevenueOf a) = Returns (take 50 (CountryRevenueOf a)) ∧
  TopProducts a maxProducts
    = Returns (take 20 (pd_TopProducts (precomputed a))) ∧
  TopRegions a maxRegions
    = Returns (take 30 (pd_TopRegions (precomputed a))).
Proof.
  repeat split.
  - unfold limitCountryRows, maxTableRows.
    destruct (Z.ltb_spec 50 (Z.of_nat (length (CountryRevenueOf a)))).
    + rewrite sliceTo_in_range by lia. done.
    + by rewrite take_ge by lia.
  - unfold TopProducts, maxProducts. rewrite truncate_prefix by lia.
    destruct (Z.min_spec 20 (Z.of_nat (length (pd_TopProducts (precomputed a)))))
      as [[? ->]|[? ->]]; [done|].
    rewrite Nat2Z.id, firstn_all. by rewrite take_ge by lia.
  - unfold TopRegions, maxRegions. rewrite truncate_prefix by lia.
    destruct (Z.min_spec 30 (Z.of_nat (length (pd_TopRegions (precomputed a)))))
      as [[? ->]|[? ->]]; [done|].
    rewrite Nat2Z.id, firstn_all. by rewrite take_ge by lia.
Qed.

(** ** package middleware *)

(** [Chain]: the loop from the last middleware to the first wraps the
    handler in each. *)
Definition Chain {H : Type} (middlewares : list (H → H)) (h : H) : H :=
  foldl (λ h m, m h) h (reverse middlewares).

(** X20: in a chain the first middleware listed is the outermost, the
    handler is wrapped by the last, and chaining two lists is chaining the
    second and then the first. *)
Theorem chain_order {H : Type} (m : H → H) (ms1 ms2 : list (H → H)) (h : H) :
  Chain [] h = h ∧
  Chain (m :: ms1) h = m (Chain ms1 h) ∧
  Chain (ms1 ++ ms2) h = Chain ms1 (Chain ms2 h).
Proof.
  unfold Chain. repeat split.
  - by rewrite reverse_cons, foldl_app.
  - by rewrite reverse_app, foldl_app.
Qed.

(** [net.SplitHostPort]; on an error the host is the empty string. *)
Class NetLib := {
  SplitHostPort : string → option (string * string)
}.

Definition hostOf `{!NetLib} (remoteAddr : string) : string :=
  match SplitHostPort remoteAddr with
  | Some (host, _) => host
  | None => EmptyString
  end.

(** A request as the middleware reads it. The header holds the values sent
    for each canonical key; [Get] is the first of them, or the empty
    string. *)
Record Request := {
  req_Header : gmap string (list string);
  req_RemoteAddr : string
}.

Definition headerGet (h : gmap string (list string)) (key : string) : string :=
  match h !! key with
  | Some (v :: _) => v
  | _ => EmptyString
  end.

Definition isEmpty (s : string) : bool := String.eqb s EmptyString.

Section ClientIP.
Context `{!StdLib} `{!NetLib}.

Definition getClientIP (r : Request) : string :=
  let xff := headerGet (req_Header r) "X-Forwarded-For" in
  if negb (isEmpty xff) then TrimSpace (field (Split xff) 0)
  else
    let xri := headerGet (req_Header r) "X-Real-Ip" in
    if negb (isEmpty xri) then xri
    else hostOf (req_RemoteAddr r).

Definition isTrustedProxy (remoteAddr : string) (trusted : list string) : bool :=
  existsb (λ trustedIP, String.eqb trustedIP (hostOf remoteAddr)) trusted.

(** The request [TrustedProxy] passes on. *)
Definition trustedProxyRequest (trusted : list string) (r : Request) : Request :=
  if isTrustedProxy (req_RemoteAddr r) trusted then r
  else {| req_Header :=
            delete "X-Forwarded-Proto"
              (delete "X-Real-Ip" (delete "X-Forwarded-For" (req_Header r)));
          req_RemoteAddr := req_RemoteAddr r |}.

(** X21: behind [TrustedProxy] the client address, which is the key of the
    rate limiter, cannot be chosen by a peer that is not a trusted proxy:
    its forwarding headers are dropped and the address is the host of the
    connection. From a trusted proxy the request is passed on unchanged. *)
Theorem untrusted_peer_address (trusted : list string) (r : Request) :
  (isTrustedProxy (req_RemoteAddr r) trusted = false →
     getClientIP (trustedProxyRequest trusted r) = hostOf (req_RemoteAddr r)) ∧
  (isTrustedProxy (req_RemoteAddr r) trusted = true →
     trustedProxyRequest trusted r = r).
Proof.
  unfold trustedProxyRequest. split; intros ->; [|done].
  unfold getClientIP, headerGet. cbn.
  rewrite lookup_delete_ne, lookup_delete_ne, lookup_delete_eq by done.
  cbn. by rewrite lookup_delete_ne, lookup_delete_eq by done.
Qed.

(** The host of the connection is trusted exactly when it is one of the
    configured proxies; an address [SplitHostPort] rejects counts as the
    empty host. *)
Lemma trusted_proxy_iff (remoteAddr : string) (trusted : list string) :
  isTrustedProxy remoteAddr trusted = true ↔ hostOf remoteAddr ∈ trusted.
Proof.
  unfold isTrustedProxy. rewrite existsb_exists. split.
  - intros (t & Hin & Heq%String.eqb_eq). subst. by apply list_elem_of_In.
  - intros Hin. exists (hostOf remoteAddr).
    split; [by apply list_elem_of_In|apply String.eqb_refl].
Qed.
End ClientIP.

(** ** package config *)

(** [strconv.ParseBool] and [time.ParseDuration] (in nanoseconds); [None] is
    a non-nil error. *)
Class ConfLib := {
  ParseBool : string → option bool;
  ParseDuration : string → option Z
}.

Record ServerConfig := {
  sc_Host : string;
  sc_Port : Z;
  sc_ReadTimeout : Z;
  sc_WriteTimeout : Z;
  sc_IdleTimeout : Z;
  sc_ShutdownTimeout : Z
}.

Record SecurityConfig := {
  sec_EnableCSRF : bool;
  sec_EnableRateLimit : bool;
  sec_RateLimitRPS : Z;
  sec_RateLimitBurst : Z;
  sec_AllowedOrigins : list string;
  sec_TrustedProxies : list string
}.

Record Config := {
  cfg_Server : ServerConfig;
  cfg_CSVFile : string;
  cfg_LogLevel : string;
  cfg_LogFormat : string;
  cfg_Security : SecurityConfig
}.

Inductive ConfigError :=
  | ErrPort (got : Z)
  | ErrReadTimeout
  | ErrWriteTimeout
  | ErrCSVFileEmpty
  | ErrLogLevel (level : string)
  | ErrLogFormat (format : string)
  | ErrRateLimitRPS
  | ErrRateLimitBurst.

Definition second : Z := 1000000000.

(** The environment: [os.Getenv] gives the empty string for a variable that
    is not set. *)
Definition Getenv (env : gmap string string) (key : string) : string :=
  default EmptyString (env !! key).

Definition contains (slice : list string) (item : string) : bool :=
  existsb (λ s, String.eqb s item) slice.

Definition validate (c : Config) : option ConfigError :=
  if (sc_Port (cfg_Server c) <? 1) || (65535 <? sc_Port (cfg_Server c))
  then Some (ErrPort (sc_Port (cfg_Server c)))
  else if sc_ReadTimeout (cfg_Server c) <=? 0 then Some ErrReadTimeout
  else if sc_WriteTimeout (cfg_Server c) <=? 0 then Some ErrWriteTimeout
  else if isEmpty (cfg_CSVFile c) then Some ErrCSVFileEmpty
  else if negb (contains ["debug"; "info"; "warn"; "error"] (cfg_LogLevel c))
       then Some (ErrLogLevel (cfg_LogLevel c))
  else if negb (contains ["json"; "text"] (cfg_LogFormat c))
       then Some (ErrLogFormat (cfg_LogFormat c))
  else if sec_RateLimitRPS (cfg_Security c) <=? 0 then Some ErrRateLimitRPS
  else if sec_RateLimitBurst (cfg_Security c) <=? 0 then Some ErrRateLimitBurst
  else None.

Section ConfigLoad.
Context `{!StdLib} `{!ConfLib}.
Variable env : gmap string string.

Definition getEnvString (key defaultValue : string) : string :=
  if negb (isEmpty (Getenv env key)) then Getenv env key else defaultValue.

Definition getEnvInt (key : string) (defaultValue : Z) : Z :=
  if negb (isEmpty (Getenv env key))
  then default defaultValue (Atoi (Getenv env key))
  else defaultValue.

Definition getEnvBool (key : string) (defaultValue : bool) : bool :=
  if negb (isEmpty (Getenv env key))
  then default defaultValue (ParseBool (Getenv env key))
  else defaultValue.

Definition getEnvDuration (key : string) (defaultValue : Z) : Z :=
  if negb (isEmpty (Getenv env key))
  then default defaultValue (ParseDuration (Getenv env key))
  else defaultValue.

Definition getEnvStringSlice (key : string) (defaultValue : list string)
    : list string :=
  if negb (isEmpty (Getenv env key)) then Split (Getenv env key)
  else defaultValue.

Definition readConfig : Config :=
  {| cfg_Server :=
       {| sc_Host := getEnvString "SERVER_HOST" "localhost";
          sc_Port := getEnvInt "SERVER_PORT" 8084;
          sc_ReadTimeout := getEnvDuration "SERVER_READ_TIMEOUT" (10 * second);
          sc_WriteTimeout := getEnvDuration "SERVER_WRITE_TIMEOUT" (10 * second);
          sc_IdleTimeout := getEnvDuration "SERVER_IDLE_TIMEOUT" (60 * second);
          sc_ShutdownTimeout :=
            getEnvDuration "SERVER_SHUTDOWN_TIMEOUT" (30 * second) |};
     cfg_CSVFile := getEnvString "CSV_FILE" "data.csv";
     cfg_LogLevel := getEnvString "LOG_LEVEL" "info";
     cfg_LogFormat := getEnvString "LOG_FORMAT" "json";
     cfg_Security :=
       {| sec_EnableCSRF := getEnvBool "SECURITY_CSRF_ENABLED" true;
          sec_EnableRateLimit := getEnvBool "SECURITY_RATE_LIMIT_ENABLED" true;
          sec_RateLimitRPS := getEnvInt "SECURITY_RATE_LIMIT_RPS" 100;
          sec_RateLimitBurst := getEnvInt "SECURITY_RATE_LIMIT_BURST" 10;
          sec_AllowedOrigins :=
            getEnvStringSlice "SECURITY_ALLOWED_ORIGINS" ["http://localhost:8084"];
          sec_TrustedProxies :=
            getEnvStringSlice "SECURITY_TRUSTED_PROXIES" ["127.0.0.1"] |} |}.

(** [Load]: the error is the cause that [Load] wraps. *)
Definition Load : ConfigError + Config :=
  match validate readConfig with
  | Some err => inl err
  | None => inr readConfig
  end.
End ConfigLoad.

Definition intKeys : list string :=
  ["SERVER_PORT"; "SECURITY_RATE_LIMIT_RPS"; "SECURITY_RATE_LIMIT_BURST"].

Definition boolKeys : list string :=
  ["SECURITY_CSRF_ENABLED"; "SECURITY_RATE_LIMIT_ENABLED"].

Definition durationKeys : list string :=
  ["SERVER_READ_TIMEOUT"; "SERVER_WRITE_TIMEOUT"; "SERVER_IDLE_TIMEOUT";
   "SERVER_SHUTDOWN_TIMEOUT"].

Lemma isEmpty_true s : isEmpty s = true ↔ s = EmptyString.
Proof. apply String.eqb_eq. Qed.

Lemma isEmpty_false s : isEmpty s = false ↔ s ≠ EmptyString.
Proof. apply String.eqb_neq. Qed.

Lemma contains_elem slice item : contains slice item = true ↔ item ∈ slice.
Proof.
  unfold contains. rewrite existsb_exists. split.
  - intros (s & Hin & ->%String.eqb_eq). by apply list_elem_of_In.
  - intros Hin. exists item. split; [by apply list_elem_of_In|apply String.eqb_refl].
Qed.

Section ConfigProperties.
Context `{!StdLib} `{!ConfLib}.

Lemma getEnvString_nonempty env key d : d ≠ EmptyString → getEnvString env key d ≠ EmptyString.
Proof.
  intros Hd. unfold getEnvString.
  destruct (isEmpty (Getenv env key)) eqn:He; [done|]. by apply isEmpty_false.
Qed.

Lemma getEnvStringSlice_nonempty env key d : d ≠ [] → getEnvStringSlice env key d ≠ [].
Proof.
  intros Hd. unfold getEnvStringSlice.
  destruct (isEmpty (Getenv env key)); [done|]. apply Split_nonempty.
Qed.

(** X22: a configuration that [Load] returns has a port between 1 and
    65535, positive read and write timeouts, a known log level and format
    and positive rate limits; its host and CSV path are never empty and its
    lists of origins and proxies have at least one element. The check of the
    CSV path can therefore never be the error of a load. *)
Theorem Load_result (env : gmap string string) :
  (∀ cfg, Load env = inr cfg →
     1 ≤ sc_Port (cfg_Server cfg) ≤ 65535 ∧
     0 < sc_ReadTimeout (cfg_Server cfg) ∧
     0 < sc_WriteTimeout (cfg_Server cfg) ∧
     cfg_LogLevel cfg ∈ ["debug"; "info"; "warn"; "error"] ∧
     cfg_LogFormat cfg ∈ ["json"; "text"] ∧
     0 < sec_RateLimitRPS (cfg_Security cfg) ∧
     0 < sec_RateLimitBurst (cfg_Security cfg) ∧
     sc_Host (cfg_Server cfg) ≠ EmptyString ∧
     cfg_CSVFile cfg ≠ EmptyString ∧
     sec_AllowedOrigins (cfg_Security cfg) ≠ [] ∧
     sec_TrustedProxies (cfg_Security cfg) ≠ []) ∧
  Load env ≠ inl ErrCSVFileEmpty.
Proof.
  unfold Load, validate.
  assert (isEmpty (cfg_CSVFile (readConfig env)) = false) as Hcsv
    by (apply isEmpty_false; by apply getEnvString_nonempty).
  rewrite Hcsv.
  destruct (_ || _) eqn:Hport; [done|].
  apply orb_false_iff in Hport as [Hlo%Z.ltb_ge Hhi%Z.ltb_ge].
  destruct (Z.leb_spec (sc_ReadTimeout (cfg_Server (readConfig env))) 0); [done|].
  destruct (Z.leb_spec (sc_WriteTimeout (cfg_Server (readConfig env))) 0); [done|].
  destruct (contains _ (cfg_LogLevel (readConfig env))) eqn:Hlevel; [|done].
  destruct (contains _ (cfg_LogFormat (readConfig env))) eqn:Hformat; [|done].
  cbn [negb].
  destruct (Z.leb_spec (sec_RateLimitRPS (cfg_Security (readConfig env))) 0);
    [done|].
  destruct (Z.leb_spec (sec_RateLimitBurst (cfg_Security (readConfig env))) 0);
    [done|].
  split; [|done]. intros cfg [= <-].
  apply contains_elem in Hlevel, Hformat.
  repeat split; try done; try lia.
  - by apply getEnvString_nonempty.
  - by apply isEmpty_false.
  - by apply getEnvStringSlice_nonempty.
  - by apply getEnvStringSlice_nonempty.
Qed.

Lemma readConfig_ext env1 env2 :
  (∀ key, Getenv env1 key = Getenv env2 key) → readConfig env1 = readConfig env2.
Proof.
  intros Hext. unfold readConfig, getEnvString, getEnvInt, getEnvBool,
    getEnvDuration, getEnvStringSlice. by rewrite !Hext.
Qed.

Lemma Getenv_insert env key v key' :
  Getenv (<[key := v]> env) key' = if decide (key = key') then v else Getenv env key'.
Proof. unfold Getenv. rewrite lookup_insert. by destruct (decide _). Qed.

Lemma Getenv_delete env key key' :
  Getenv (delete key env) key' =
    if decide (key = key') then EmptyString else Getenv env key'.
Proof. unfold Getenv. rewrite lookup_delete. by destruct (decide _). Qed.

Lemma Getenv_other env key v key' :
  key ≠ key' → Getenv (<[key := v]> env) key' = Getenv (delete key env) key'.
Proof. intros. by rewrite Getenv_insert, Getenv_delete, !decide_False. Qed.

Lemma Getenv_set env key v : Getenv (<[key := v]> env) key = v.
Proof. by rewrite Getenv_insert, decide_True. Qed.

Lemma Getenv_unset env key : Getenv (delete key env) key = EmptyString.
Proof. by rewrite Getenv_delete, decide_True. Qed.

Ltac unusable_field v :=
  unfold getEnvString, getEnvInt, getEnvBool, getEnvDuration, getEnvStringSlice;
  first
    [ by rewrite Getenv_other by done
    | rewrite Getenv_set, Getenv_unset;
      match goal with Hparse : _ = None |- _ => rewrite Hparse end;
      by destruct (isEmpty v) ].

Ltac unusable_key v :=
  unfold readConfig;
  repeat match goal with
  | |- context [?getter (<[?k := v]> ?e) ?k' ?d] =>
      replace (getter (<[k := v]> e) k' d) with (getter (delete k e) k' d)
        by (symmetry; unusable_field v)
  end;
  done.

(** X23: a variable of the environment that is set to the empty string, or
    whose value does not parse as the integer, boolean or duration its
    setting needs, is not an error: the configuration is loaded exactly as
    if the variable were not set, with the default in its place. *)
Theorem unusable_variable_as_unset (env : gmap string string) (key v : string) :
  v = EmptyString ∨
  (key ∈ intKeys ∧ Atoi v = None) ∨
  (key ∈ boolKeys ∧ ParseBool v = None) ∨
  (key ∈ durationKeys ∧ ParseDuration v = None) →
  Load (<[key := v]> env) = Load (delete key env).
Proof.
  intros Hv. unfold Load.
  assert (readConfig (<[key := v]> env) = readConfig (delete key env)) as ->;
    [|done].
  destruct Hv as [->|[[Hk Hp]|[[Hk Hp]|[Hk Hp]]]].
  - apply readConfig_ext. intros k. rewrite Getenv_insert, Getenv_delete.
    by destruct (decide _).
  - unfold intKeys in Hk.
    repeat (apply elem_of_cons in Hk as [->|Hk]); [..|by apply elem_of_nil in Hk];
      unusable_key v.
  - unfold boolKeys in Hk.
    repeat (apply elem_of_cons in Hk as [->|Hk]); [..|by apply elem_of_nil in Hk];
      unusable_key v.
  - unfold durationKeys in Hk.
    repeat (apply elem_of_cons in Hk as [->|Hk]); [..|by apply elem_of_nil in Hk];
      unusable_key v.
Qed.
End ConfigProperties.

(** [strconv.ParseBool]. *)
Definition sampleParseBool (s : string) : option bool :=
  if existsb (String.eqb s) ["1"; "t"; "T"; "TRUE"; "true"; "True"] then Some true
  else if existsb (String.eqb s) ["0"; "f"; "F"; "FALSE"; "false"; "False"]
  then Some false
  else None.

Fixpoint splitUnit (s : string) : string * string :=
  match s with
  | EmptyString => (EmptyString, EmptyString)
  | String c rest =>
      match digitOf c with
      | Some _ => let '(digits, unit) := splitUnit rest in (String c digits, unit)
      | None => (EmptyString, s)
      end
  end.

(** [time.ParseDuration] on a whole number followed by one unit. *)
Definition sampleParseDuration (s : string) : option Z :=
  let '(digits, unit) := splitUnit s in
  match parseDigits digits with
  | Some n =>
      if String.eqb unit "ms" then Some (n * 1000000)
      else if String.eqb unit "s" then Some (n * second)
      else if String.eqb unit "m" then Some (n * 60 * second)
      else if String.eqb unit "h" then Some (n * 3600 * second)
      else None
  | None => None
  end.

#[export] Instance sampleConfLib : ConfLib :=
  {| ParseBool := sampleParseBool; ParseDuration := sampleParseDuration |}.

Definition sampleEnv : gmap string string :=
  {[ "SERVER_HOST" := "0.0.0.0"; "SERVER_READ_TIMEOUT" := "5s";
     "LOG_LEVEL" := "debug" ]}.

Lemma unusable_variable_as_unset_witness :
  Load (<["SERVER_PORT" := "http"]> sampleEnv) = Load (delete "SERVER_PORT" sampleEnv) ∧
  Load (<["SERVER_READ_TIMEOUT" := "5"]> sampleEnv) =
    Load (delete "SERVER_READ_TIMEOUT" sampleEnv).
Proof.
  split.
  - apply unusable_variable_as_unset. right; left. split; [|reflexivity].
    unfold intKeys. apply elem_of_cons. by left.
  - apply unusable_variable_as_unset. do 3 right. split; [|reflexivity].
    unfold durationKeys. apply elem_of_cons. by left.
Defined.

(** The settings of [sampleEnv] are taken and the others are the defaults;
    a read timeout without a unit makes the default of ten seconds come
    back. *)
Example Load_sampleEnv :
  (∃ cfg, Load sampleEnv = inr cfg ∧
     sc_Host (cfg_Server cfg) = "0.0.0.0" ∧ sc_Port (cfg_Server cfg) = 8084 ∧
     sc_ReadTimeout (cfg_Server cfg) = 5 * second ∧ cfg_LogLevel cfg = "debug" ∧
     cfg_CSVFile cfg = "data.csv") ∧
  (∃ cfg, Load (<["SERVER_READ_TIMEOUT" := "5"]> sampleEnv) = inr cfg ∧
     sc_ReadTimeout (cfg_Server cfg) = 10 * second) ∧
  Load (<["SERVER_PORT" := "70000"]> sampleEnv) = inl (ErrPort 70000).
Proof.
  split; [|split].
  - eexists. split; [vm_compute; reflexivity|]. by vm_compute.
  - eexists. split; [vm_compute; reflexivity|]. by vm_compute.
  - by vm_compute.
Qed.
